(** * ReverseIterableSet: a shallow embedding of [src/reverse-iterable-set.ts]

    The TypeScript class keeps a built-in [Map] from values to node objects
    and a doubly linked chain of mutable node objects.  Node objects have
    identity and are mutated in place, and iterators are closures over
    mutable locals, so the embedding passes an explicit object store:

    - a node reference is a location [loc]; the store of node objects is a
      finite map from locations to node records;
    - a [ReverseIterableSet] value is the state of one set object together
      with the store of the nodes it has allocated;
    - an iterator is the record of the variables its closures capture. *)

From stdpp Require Import base option list gmap strings.
From Stdlib Require Import ZArith.

(** ** JavaScript values *)

(** The values used as set elements: the primitives, and references to
    objects.  Numbers are modelled by integers.  [Map] compares keys with
    SameValueZero, which on these values is plain equality (objects are
    compared by identity, that is, as references). *)
Inductive Prim : Type :=
  | PUndefined
  | PNull
  | PBool (b : bool)
  | PNum (n : Z)
  | PStr (s : string)
  | PRef (r : nat).

#[global] Instance Prim_eq_dec : EqDecision Prim.
Proof. solve_decision. Defined.

Definition Prim_to_sum (p : Prim) : unit + unit + bool + Z + string + nat :=
  match p with
  | PUndefined => inl (inl (inl (inl (inl ()))))
  | PNull => inl (inl (inl (inl (inr ()))))
  | PBool b => inl (inl (inl (inr b)))
  | PNum n => inl (inl (inr n))
  | PStr s => inl (inr s)
  | PRef r => inr r
  end.

Definition Prim_of_sum (x : unit + unit + bool + Z + string + nat) : Prim :=
  match x with
  | inl (inl (inl (inl (inl _)))) => PUndefined
  | inl (inl (inl (inl (inr _)))) => PNull
  | inl (inl (inl (inr b))) => PBool b
  | inl (inl (inr n)) => PNum n
  | inl (inr s) => PStr s
  | inr r => PRef r
  end.

#[global] Instance Prim_countable : Countable Prim :=
  inj_countable' Prim_to_sum Prim_of_sum
    (λ p, match p with
          | PUndefined | PNull | PBool _ | PNum _ | PStr _ | PRef _ => eq_refl
          end).

(** What an iterator step can produce: an element (for [values()] and
    [iteratorFor()]) or the two-element array [[v, v]] of [entries()]. *)
Inductive JsValue : Type :=
  | JPrim (p : Prim)
  | JTuple (a b : Prim).

#[global] Instance JsValue_eq_dec : EqDecision JsValue.
Proof. solve_decision. Defined.

Definition undefined : JsValue := JPrim PUndefined.

(** [value === undefined] *)
Definition is_undefined (v : JsValue) : bool :=
  match v with
  | JPrim PUndefined => true
  | _ => false
  end.

(** ** The built-in [Map], as far as the class uses it *)

Module JsMap.
Section ops.
Context {K : Type} `{Countable K} {A : Type}.

Definition get (m : gmap K A) (k : K) : option A := m !! k.
Definition has (m : gmap K A) (k : K) : bool := bool_decide (is_Some (m !! k)).
Definition set (m : gmap K A) (k : K) (a : A) : gmap K A := <[k:=a]> m.
(** [Map.prototype.delete] reports whether the key was present. *)
Definition delete (m : gmap K A) (k : K) : bool * gmap K A :=
  (has m k, base.delete k m).
Definition clear (m : gmap K A) : gmap K A := ∅.
Definition size (m : gmap K A) : nat := base.size m.
End ops.
End JsMap.

(** ** Node objects and the store *)

Definition loc : Type := nat.

(** [class ReverseIterableSetNode]; [None] is [null]. *)
Record ReverseIterableSetNode : Type := mkNode {
  value : Prim;
  nextNode : option loc;
  prevNode : option loc
}.

#[global] Instance Node_inhabited : Inhabited ReverseIterableSetNode :=
  populate (mkNode PUndefined None None).

(** The state of one [ReverseIterableSet] object: its three private fields
    and the node objects created by it so far ([store], with [nextLoc] the
    next unused location).  Nodes dropped by [delete] or [clear] stay in
    the store, as they stay alive in JavaScript while an iterator still
    refers to them. *)
Record ReverseIterableSet : Type := mkSet {
  store : gmap loc ReverseIterableSetNode;
  nextLoc : loc;
  _setMap : gmap Prim loc;
  _firstNode : option loc;
  _lastNode : option loc
}.

Section fields.
Implicit Types (this : ReverseIterableSet) (node : loc).

(** Reading a node object through a reference. *)
Definition deref (h : gmap loc ReverseIterableSetNode) node : ReverseIterableSetNode :=
  h !!! node.

(** [node.nextNode = x] *)
Definition write_nextNode node (x : option loc) this : ReverseIterableSet :=
  let n := deref (store this) node in
  mkSet (<[node := mkNode (value n) x (prevNode n)]> (store this))
        (nextLoc this) (_setMap this) (_firstNode this) (_lastNode this).

(** [node.prevNode = x] *)
Definition write_prevNode node (x : option loc) this : ReverseIterableSet :=
  let n := deref (store this) node in
  mkSet (<[node := mkNode (value n) (nextNode n) x]> (store this))
        (nextLoc this) (_setMap this) (_firstNode this) (_lastNode this).

(** [this._firstNode = x] *)
Definition write_firstNode (x : option loc) this : ReverseIterableSet :=
  mkSet (store this) (nextLoc this) (_setMap this) x (_lastNode this).

(** [this._lastNode = x] *)
Definition write_lastNode (x : option loc) this : ReverseIterableSet :=
  mkSet (store this) (nextLoc this) (_setMap this) (_firstNode this) x.

(** [this._setMap = m] after an in-place update of the map. *)
Definition write_setMap (m : gmap Prim loc) this : ReverseIterableSet :=
  mkSet (store this) (nextLoc this) m (_firstNode this) (_lastNode this).

(** [new ReverseIterableSetNode(value)]: a fresh object whose links are
    [null]. *)
Definition new_Node (v : Prim) this : loc * ReverseIterableSet :=
  (nextLoc this,
   mkSet (<[nextLoc this := mkNode v None None]> (store this))
         (S (nextLoc this)) (_setMap this) (_firstNode this) (_lastNode this)).
End fields.

(** ** The methods of the class *)

(** [get size()] *)
Definition size (this : ReverseIterableSet) : nat := JsMap.size (_setMap this).

(** [clear()] *)
Definition clear (this : ReverseIterableSet) : ReverseIterableSet :=
  let this := write_setMap (JsMap.clear (_setMap this)) this in
  let this := write_firstNode None this in
  write_lastNode None this.

(** [has(value)] *)
Definition has (this : ReverseIterableSet) (v : Prim) : bool :=
  JsMap.has (_setMap this) v.

(** [add(value)].  The method returns [this] on both paths; the result of
    the embedding is the receiver after the call. *)
Definition add (v : Prim) (this : ReverseIterableSet) : ReverseIterableSet :=
  if has this v then this
  else
    let '(node, this) := new_Node v this in
    let this := write_setMap (JsMap.set (_setMap this) v node) this in
    let this :=
      match _lastNode this with
      | Some last =>
          let this := write_prevNode node (Some last) this in
          write_nextNode last (Some node) this
      | None => this
      end in
    let this :=
      match _firstNode this with
      | None => write_firstNode (Some node) this
      | Some _ => this
      end in
    write_lastNode (Some node) this.

(** [addFirst(value)], also returning [this]. *)
Definition addFirst (v : Prim) (this : ReverseIterableSet) : ReverseIterableSet :=
  if has this v then this
  else
    let '(node, this) := new_Node v this in
    let this := write_setMap (JsMap.set (_setMap this) v node) this in
    let this :=
      match _firstNode this with
      | Some first =>
          let this := write_nextNode node (Some first) this in
          write_prevNode first (Some node) this
      | None => this
      end in
    let this :=
      match _lastNode this with
      | None => write_lastNode (Some node) this
      | Some _ => this
      end in
    write_firstNode (Some node) this.

(** [delete(value)]: the returned boolean and the receiver after the call. *)
Definition delete (v : Prim) (this : ReverseIterableSet) : bool * ReverseIterableSet :=
  match JsMap.get (_setMap this) v with
  | None => (false, this)
  | Some node =>
      let this :=
        match prevNode (deref (store this) node), nextNode (deref (store this) node) with
        | Some p, Some n =>
            let this := write_nextNode p (nextNode (deref (store this) node)) this in
            write_prevNode n (prevNode (deref (store this) node)) this
        | Some p, None =>
            let this := write_nextNode p None this in
            write_lastNode (prevNode (deref (store this) node)) this
        | None, Some n =>
            let this := write_prevNode n None this in
            write_firstNode (nextNode (deref (store this) node)) this
        | None, None =>
            let this := write_firstNode None this in
            write_lastNode None this
        end in
      let '(r, m) := JsMap.delete (_setMap this) v in
      (r, write_setMap m this)
  end.

(** [new ReverseIterableSet(iterable)]; [None] is the omitted argument. *)
Definition empty_set : ReverseIterableSet := mkSet ∅ 0 ∅ None None.

Definition construct (iterable : option (list Prim)) : ReverseIterableSet :=
  match iterable with
  | None => empty_set
  | Some elements => foldl (λ this element, add element this) empty_set elements
  end.

(** ** Iterators *)

(** [IteratorResult]: the object [{ value, done }]. *)
Module IteratorResult.
Record t : Type := mk { value : JsValue; done : bool }.
End IteratorResult.

(** [iteratorResult(value)] *)
Definition iteratorResult (v : JsValue) : IteratorResult.t :=
  IteratorResult.mk v (is_undefined v).

(** The object returned by [_iterableIterator]: the variables its three
    closures share.  [getIteratorValue], [startNode] ([None] is
    [undefined]) and [lastNode] are fixed at creation; [currentNode] and
    [forwards] are assigned by the closures. *)
Record ReverseIterableIterator : Type := mkIter {
  getIteratorValue : ReverseIterableSetNode → JsValue;
  startNode : option loc;
  lastNode : option loc;
  currentNode : option loc;
  forwards : bool
}.

(** [_iterableIterator(getIteratorValue, startNode)] *)
Definition _iterableIterator (this : ReverseIterableSet)
    (g : ReverseIterableSetNode → JsValue) (start : option loc) :
    ReverseIterableIterator :=
  mkIter g start (_lastNode this)
    (match start with Some n => Some n | None => _firstNode this end)
    true.

Module Iterator.
(** [reverseIterator()] of the iterator object; it returns the object
    itself. *)
Definition reverseIterator (it : ReverseIterableIterator) : ReverseIterableIterator :=
  mkIter (getIteratorValue it) (startNode it) (lastNode it)
    (match startNode it with Some n => Some n | None => lastNode it end)
    false.

(** [[Symbol.iterator]()] of the iterator object. *)
Definition Symbol_iterator (it : ReverseIterableIterator) : ReverseIterableIterator := it.

(** [next()], run against the current store of node objects. *)
Definition next (h : gmap loc ReverseIterableSetNode) (it : ReverseIterableIterator) :
    IteratorResult.t * ReverseIterableIterator :=
  match currentNode it with
  | Some cur =>
      let v := getIteratorValue it (deref h cur) in
      let cur' := if forwards it then nextNode (deref h cur) else prevNode (deref h cur) in
      (iteratorResult v,
       mkIter (getIteratorValue it) (startNode it) (lastNode it) cur' (forwards it))
  | None => (iteratorResult undefined, it)
  end.
End Iterator.

(** [entries()] *)
Definition entries (this : ReverseIterableSet) : ReverseIterableIterator :=
  _iterableIterator this (λ node, JTuple (value node) (value node)) None.

(** [values()] *)
Definition values (this : ReverseIterableSet) : ReverseIterableIterator :=
  _iterableIterator this (λ node, JPrim (value node)) None.

(** [iteratorFor(value)] *)
Definition iteratorFor (this : ReverseIterableSet) (v : Prim) : ReverseIterableIterator :=
  let start := JsMap.get (_setMap this) v in
  _iterableIterator this (λ node, JPrim (value node)) start.

(** [[Symbol.iterator]()] of the set. *)
Definition Symbol_iterator (this : ReverseIterableSet) : ReverseIterableIterator :=
  values this.

(** [reverseIterator()] of the set. *)
Definition reverseIterator (this : ReverseIterableSet) : ReverseIterableIterator :=
  Iterator.reverseIterator (values this).

(** ** Consuming an iterator *)

(** [n] successive calls of [next()], with the results in call order and
    the iterator after the last call. *)
Fixpoint drain (n : nat) (h : gmap loc ReverseIterableSetNode)
    (it : ReverseIterableIterator) : list IteratorResult.t * ReverseIterableIterator :=
  match n with
  | 0 => ([], it)
  | S n =>
      let '(r, it) := Iterator.next h it in
      let '(rs, it) := drain n h it in
      (r :: rs, it)
  end.

(** The iteration protocol followed by [for ... of] and by spread
    ([[...it]]): call [next()] until a result has [done] set and keep the
    values of the results before it.  [fuel] bounds the number of calls;
    [None] means the bound was reached first. *)
Fixpoint collect (fuel : nat) (h : gmap loc ReverseIterableSetNode)
    (it : ReverseIterableIterator) : option (list JsValue) :=
  match fuel with
  | 0 => None
  | S fuel =>
      let '(r, it) := Iterator.next h it in
      if IteratorResult.done r then Some []
      else cons (IteratorResult.value r) <$> collect fuel h it
  end.

(** Spread over an iterator of the set [this]; a set of [size] elements
    needs at most [size + 1] calls of [next()]. *)
Definition spread (this : ReverseIterableSet) (it : ReverseIterableIterator) :
    option (list JsValue) :=
  collect (S (size this)) (store this) (Iterator.Symbol_iterator it).

(** ** Observing a set *)

(** Following [nextNode] from a node until [null], at most [fuel] nodes. *)
Fixpoint walk (fuel : nat) (h : gmap loc ReverseIterableSetNode) (cur : option loc) :
    list loc :=
  match fuel, cur with
  | S fuel, Some l => l :: walk fuel h (nextNode (deref h l))
  | _, _ => []
  end.

(** The same along [prevNode]. *)
Fixpoint walk_back (fuel : nat) (h : gmap loc ReverseIterableSetNode) (cur : option loc) :
    list loc :=
  match fuel, cur with
  | S fuel, Some l => l :: walk_back fuel h (prevNode (deref h l))
  | _, _ => []
  end.

(** The chain of the set: the nodes reached from [_firstNode].  The walk
    is allowed one node more than the index has entries, so a chain that
    is longer than the index shows as a list longer than [size]. *)
Definition nodes (this : ReverseIterableSet) : list loc :=
  walk (S (size this)) (store this) (_firstNode this).

(** The values of the chain, in chain order. *)
Definition elements (this : ReverseIterableSet) : list Prim :=
  (λ l, value (deref (store this) l)) <$> nodes this.

(** ** Sets that the public interface can produce *)

Inductive Op : Type :=
  | OpAdd (v : Prim)
  | OpAddFirst (v : Prim)
  | OpDelete (v : Prim)
  | OpClear.

Definition apply_op (o : Op) (this : ReverseIterableSet) : ReverseIterableSet :=
  match o with
  | OpAdd v => add v this
  | OpAddFirst v => addFirst v this
  | OpDelete v => snd (delete v this)
  | OpClear => clear this
  end.

(** A set is [reachable] when it comes from the constructor followed by
    any sequence of mutating methods. *)
Inductive reachable : ReverseIterableSet → Prop :=
  | reachable_construct iterable : reachable (construct iterable)
  | reachable_op o this : reachable this → reachable (apply_op o this).

(** The iterators of a set [this] that is not mutated while they are in
    use: those handed out by the set, and what [next()] and
    [reverseIterator()] turn them into. *)
Inductive iterator_of (this : ReverseIterableSet) : ReverseIterableIterator → Prop :=
  | iterator_of_values : iterator_of this (values this)
  | iterator_of_entries : iterator_of this (entries this)
  | iterator_of_iteratorFor v : iterator_of this (iteratorFor this v)
  | iterator_of_reverse it :
      iterator_of this it → iterator_of this (Iterator.reverseIterator it)
  | iterator_of_next it :
      iterator_of this it → iterator_of this (snd (Iterator.next (store this) it)).

(** ** The representation invariant *)

Definition or_else (a b : option loc) : option loc :=
  match a with Some y => Some y | None => b end.

(** [dlseg h p ls n]: in store [h] the nodes [ls] are linked in this
    order in both directions, the first one having [p] before it and the
    last one [n] behind it. *)
Fixpoint dlseg (h : gmap loc ReverseIterableSetNode) (p : option loc) (ls : list loc)
    (n : option loc) : Prop :=
  match ls with
  | [] => True
  | l :: ls' =>
      prevNode (deref h l) = p ∧
      nextNode (deref h l) = or_else (head ls') n ∧
      dlseg h (Some l) ls' n
  end.

(** [Rep this ls]: the set [this] holds exactly the chain [ls]. *)
Record Rep (this : ReverseIterableSet) (ls : list loc) : Prop := mkRep {
  rep_nodup : NoDup ls;
  rep_alloc : ∀ l, l ∈ ls → l < nextLoc this;
  rep_links : dlseg (store this) None ls None;
  rep_first : _firstNode this = head ls;
  rep_last : _lastNode this = last ls;
  rep_index : ∀ v l,
    _setMap this !! v = Some l ↔ l ∈ ls ∧ value (deref (store this) l) = v;
  rep_size : base.size (_setMap this) = length ls
}.

(** The result of a step taken at node [l] of store [h] by an iterator
    whose [getIteratorValue] is [g]. *)
Definition result_at (h : gmap loc ReverseIterableSetNode)
    (g : ReverseIterableSetNode → JsValue) (l : loc) : IteratorResult.t :=
  iteratorResult (g (deref h l)).

(** The invariants of the data model, on the chain [nodes this]. *)
Record Invariants (this : ReverseIterableSet) : Prop := mkInvariants {
  (** a value is indexed iff a node of the chain holds it, and the index
      maps it to that node *)
  inv_index : ∀ v l,
    JsMap.get (_setMap this) v = Some l ↔
    l ∈ nodes this ∧ value (deref (store this) l) = v;
  (** no two nodes of the chain hold the same value *)
  inv_unique : NoDup (elements this);
  (** the chain is acyclic: no node occurs twice, and the walk from
      [_firstNode] reaches [null] after [size] nodes *)
  inv_acyclic : NoDup (nodes this);
  inv_finite : ∀ fuel,
    size this ≤ fuel → walk fuel (store this) (_firstNode this) = nodes this;
  (** doubly consistent *)
  inv_next_prev : ∀ n m,
    n ∈ nodes this → nextNode (deref (store this) n) = Some m →
    m ∈ nodes this ∧ prevNode (deref (store this) m) = Some n;
  inv_prev_next : ∀ n m,
    n ∈ nodes this → prevNode (deref (store this) n) = Some m →
    m ∈ nodes this ∧ nextNode (deref (store this) m) = Some n;
  (** the ends of the chain *)
  inv_first : _firstNode this = head (nodes this);
  inv_last : _lastNode this = last (nodes this);
  inv_first_prev : ∀ f,
    _firstNode this = Some f → prevNode (deref (store this) f) = None;
  inv_last_next : ∀ l,
    _lastNode this = Some l → nextNode (deref (store this) l) = None;
  inv_back : walk_back (S (size this)) (store this) (_lastNode this) =
             reverse (nodes this);
  (** both ends are [null] exactly when the set is empty *)
  inv_empty_first : _firstNode this = None ↔ size this = 0;
  inv_empty_last : _lastNode this = None ↔ size this = 0;
  (** index size = chain length = reported size *)
  inv_size : JsMap.size (_setMap this) = length (nodes this) ∧
             size this = length (nodes this)
}.

(** ** [forEach] and [forEachReverse] *)

(** [get [Symbol.toStringTag]()] *)
Definition Symbol_toStringTag (this : ReverseIterableSet) : string :=
  "ReverseIterableSet".

(** A callback [callbackfn(value2, value1, set)] invoked with receiver
    [thisArg].  It may mutate the set it is handed and whatever else it
    closes over: it takes the set and the state [A] of its surroundings as
    they are before the call and returns them as they are after it. *)
Definition Callback (T A : Type) : Type :=
  T → Prim → Prim → ReverseIterableSet → A → ReverseIterableSet * A.

(** The loop [for (const [value1, value2] of it) callbackfn.call(thisArg,
    value2, value1, this)]: each round calls [next()] on the set as the
    callbacks have left it and stops at the first result that has [done]
    set.  [fuel] bounds the number of rounds; [None] means the bound was
    reached first.  The iterators of [entries()] yield pairs only; the
    destructuring of any other value is not modelled and gives [None]
    too. *)
Fixpoint for_of_entries {T A : Type} (fuel : nat) (callbackfn : Callback T A)
    (thisArg : T) (it : ReverseIterableIterator) (this : ReverseIterableSet) (a : A) :
    option (ReverseIterableSet * A) :=
  match fuel with
  | 0 => None
  | S fuel =>
      let '(r, it) := Iterator.next (store this) it in
      if IteratorResult.done r then Some (this, a)
      else
        match IteratorResult.value r with
        | JTuple value1 value2 =>
            let '(this, a) := callbackfn thisArg value2 value1 this a in
            for_of_entries fuel callbackfn thisArg it this a
        | JPrim _ => None
        end
  end.

(** [forEach(callbackfn, thisArg)] *)
Definition forEach {T A : Type} (fuel : nat) (callbackfn : Callback T A) (thisArg : T)
    (this : ReverseIterableSet) (a : A) : option (ReverseIterableSet * A) :=
  for_of_entries fuel callbackfn thisArg
    (Iterator.Symbol_iterator (entries this)) this a.

(** [forEachReverse(callbackfn, thisArg)] *)
Definition forEachReverse {T A : Type} (fuel : nat) (callbackfn : Callback T A)
    (thisArg : T) (this : ReverseIterableSet) (a : A) :
    option (ReverseIterableSet * A) :=
  for_of_entries fuel callbackfn thisArg
    (Iterator.Symbol_iterator (Iterator.reverseIterator (entries this))) this a.

(** A callback that leaves the set alone and updates its surroundings by
    [f]. *)
Definition observer {T A : Type} (f : T → Prim → Prim → ReverseIterableSet → A → A) :
    Callback T A :=
  λ thisArg value2 value1 set a, (set, f thisArg value2 value1 set a).

(** The callback [function (value) { seen.push(value); if (p(value))
    set.delete(value) }], with [seen] the state of the surroundings. *)
Definition delete_if {T : Type} (p : Prim → bool) : Callback T (list Prim) :=
  λ thisArg value2 value1 set seen,
    (if p value2 then snd (delete value2 set) else set, seen ++ [value2]).

(** The values of a list in the order of their first occurrences. *)
Definition first_occurrences (l : list Prim) : list Prim :=
  reverse (remove_dups (reverse l)).

(** ** Sets used as examples *)

Definition abc : ReverseIterableSet :=
  construct (Some [PStr "a"; PStr "b"; PStr "c"]).

Definition abcde : ReverseIterableSet :=
  construct (Some [PStr "a"; PStr "b"; PStr "c"; PStr "d"; PStr "e"]).

Definition one_two_three : ReverseIterableSet :=
  construct (Some [PNum 1; PNum 2; PNum 3]).

(** The iterator [abc.values()] after four calls of [next()]. *)
Definition exhausted_abc : ReverseIterableIterator :=
  snd (drain 4 (store abc) (values abc)).

(** [new ReverseIterableSet([undefined, 1])] *)
Definition undefined_first : ReverseIterableSet :=
  construct (Some [PUndefined; PNum 1]).

(** [new ReverseIterableSet([1, undefined, 2])] *)
Definition undefined_between : ReverseIterableSet :=
  construct (Some [PNum 1; PUndefined; PNum 2]).

(** ** Facts about the store and about linked segments *)

Lemma deref_insert_eq h l n : deref (<[l:=n]> h) l = n.
Proof. apply lookup_total_insert_eq. Qed.

Lemma deref_insert_ne h l l' n : l ≠ l' → deref (<[l:=n]> h) l' = deref h l'.
Proof. apply lookup_total_insert_ne. Qed.

Lemma dlseg_frame h h' p ls n :
  (∀ l, l ∈ ls → deref h' l = deref h l) → dlseg h p ls n → dlseg h' p ls n.
Proof.
  revert p. induction ls as [|l ls IH]; intros p Hsame; simpl; [done|].
  intros (Hp & Hn & Hrest).
  rewrite Hsame by left. split_and!; [done..|].
  apply IH; [|done]. intros l' Hl'. apply Hsame. by right.
Qed.

Lemma dlseg_app h p a b n :
  dlseg h p (a ++ b) n ↔
  dlseg h p a (or_else (head b) n) ∧ dlseg h (or_else (last a) p) b n.
Proof.
  revert p. induction a as [|x a IH]; intros p; simpl.
  - tauto.
  - rewrite IH, head_app, last_cons.
    destruct a as [|y a]; simpl; [tauto|].
    destruct (last (y :: a)) eqn:Hlast; simpl; [tauto|].
    by apply last_None in Hlast.
Qed.

(** The links of one node of a segment. *)
Lemma dlseg_focus h p pre l post n :
  dlseg h p (pre ++ l :: post) n →
  prevNode (deref h l) = or_else (last pre) p ∧
  nextNode (deref h l) = or_else (head post) n.
Proof. rewrite dlseg_app. simpl. tauto. Qed.

Lemma deref_insert h l l' n :
  deref (<[l:=n]> h) l' = if decide (l = l') then n else deref h l'.
Proof. apply lookup_total_insert. Qed.

(** Redirecting the forward link of the last node of a segment. *)
Lemma dlseg_retarget_next h h' p a x n n' :
  (∀ l, l ∈ a → deref h' l = deref h l) →
  prevNode (deref h' x) = prevNode (deref h x) →
  nextNode (deref h' x) = n' →
  dlseg h p (a ++ [x]) n → dlseg h' p (a ++ [x]) n'.
Proof.
  intros Hsame Hprev Hnext. rewrite !dlseg_app. simpl.
  intros (Ha & Hp & _ & _). split_and!; [|congruence|done..].
  by apply (dlseg_frame h).
Qed.

(** Redirecting the backward link of the first node of a segment. *)
Lemma dlseg_retarget_prev h h' p p' x b n :
  (∀ l, l ∈ b → deref h' l = deref h l) →
  nextNode (deref h' x) = nextNode (deref h x) →
  prevNode (deref h' x) = p' →
  dlseg h p (x :: b) n → dlseg h' p' (x :: b) n.
Proof.
  intros Hsame Hnext Hprev. simpl.
  intros (_ & Hn & Hb). split_and!; [done|congruence|].
  by apply (dlseg_frame h).
Qed.

Lemma has_true this v : has this v = true ↔ is_Some (_setMap this !! v).
Proof. unfold has, JsMap.has. apply bool_decide_eq_true. Qed.

Lemma has_false this v : has this v = false ↔ _setMap this !! v = None.
Proof.
  unfold has, JsMap.has. rewrite bool_decide_eq_false.
  by rewrite eq_None_not_Some.
Qed.

(** ** Every method keeps the representation invariant *)

Lemma Rep_empty : Rep empty_set [].
Proof.
  split; simpl; try done.
  - constructor.
  - intros l Hl. by apply elem_of_nil in Hl.
  - intros v l. rewrite lookup_empty. split; [done|].
    intros [Hl _]. by apply elem_of_nil in Hl.
Qed.

Lemma Rep_clear this : Rep (clear this) [].
Proof.
  split; simpl; try done.
  - constructor.
  - intros l Hl. by apply elem_of_nil in Hl.
  - intros v l. unfold JsMap.clear. rewrite lookup_empty. split; [done|].
    intros [Hl _]. by apply elem_of_nil in Hl.
Qed.

(** Linking one new node: what is left to show once the new store is
    known to link the new chain [ls']. *)
Lemma Rep_insert h h' nl m f la ls ls' v :
  Rep (mkSet h nl m f la) ls →
  m !! v = None →
  NoDup ls' → (∀ l, l ∈ ls' ↔ l = nl ∨ l ∈ ls) → length ls' = S (length ls) →
  value (deref h' nl) = v →
  (∀ l, l ∈ ls → value (deref h' l) = value (deref h l)) →
  dlseg h' None ls' None →
  Rep (mkSet h' (S nl) (<[v:=nl]> m) (head ls') (last ls')) ls'.
Proof.
  intros [Hnd Hal Hlk Hfst Hlst Hidx Hsz] Hm Hnd' Hin Hlen Hnew Hold Hlk'.
  cbn [store nextLoc _setMap _firstNode _lastNode] in *.
  assert (Hfresh : nl ∉ ls) by (intros Hl; apply Hal in Hl; lia).
  split; cbn [store nextLoc _setMap _firstNode _lastNode]; try done.
  - intros l [->|Hl]%Hin; [lia|]. apply Hal in Hl. lia.
  - intros v' l. rewrite lookup_insert, Hin. case_decide as Hv; [subst v'|].
    + split; [intros [= <-]; auto|].
      intros [[->|Hl] Hval]; [done|]. exfalso.
      assert (m !! v = Some l) as Hm'; [|congruence].
      apply Hidx. by rewrite <- Hold.
    + rewrite Hidx. split.
      * intros [Hl Hval]. rewrite Hold by done. auto.
      * intros [[->|Hl] Hval]; [congruence|]. by rewrite <- Hold.
  - rewrite map_size_insert_None by done. lia.
Qed.

Lemma Rep_add this ls v :
  Rep this ls → has this v = false → Rep (add v this) (ls ++ [nextLoc this]).
Proof.
  intros HRep Hhas. pose proof HRep as [Hnd Hal Hlk Hfst Hlst Hidx Hsz].
  unfold add. rewrite Hhas. apply has_false in Hhas.
  destruct this as [h nl m fst lst].
  cbn [store nextLoc _setMap _firstNode _lastNode new_Node] in *. subst fst lst.
  assert (Hfresh : nl ∉ ls) by (intros Hin; apply Hal in Hin; lia).
  assert (Hnd' : NoDup (ls ++ [nl])).
  { apply NoDup_app. split_and!; [done| |apply NoDup_singleton].
    by intros l Hl ->%list_elem_of_singleton. }
  assert (Hin : ∀ l, l ∈ ls ++ [nl] ↔ l = nl ∨ l ∈ ls).
  { intros l. rewrite elem_of_app, list_elem_of_singleton. tauto. }
  assert (Hlen : length (ls ++ [nl]) = S (length ls)).
  { rewrite length_app. simpl. lia. }
  unfold write_lastNode, write_firstNode, write_nextNode, write_prevNode,
    write_setMap, JsMap.set.
  cbn [store nextLoc _setMap _firstNode _lastNode].
  destruct ls as [|x ls' _] using rev_ind.
  - cbn [last head store nextLoc _setMap _firstNode _lastNode].
    apply (Rep_insert h _ nl m None None [] [nl] v HRep Hhas Hnd' Hin Hlen).
    + by rewrite deref_insert_eq.
    + by intros l Hl%elem_of_nil.
    + simpl. by rewrite deref_insert_eq.
  - rewrite last_snoc.
    destruct (head (ls' ++ [x])) as [f|] eqn:Hhd;
      [|apply head_None in Hhd; by destruct ls'].
    cbn [store nextLoc _setMap _firstNode _lastNode].
    assert (Hx : x ≠ nl).
    { intros ->. apply Hfresh, elem_of_app. right. by left. }
    rewrite !deref_insert_eq, (deref_insert_ne _ nl x), deref_insert_ne by done.
    set (h' := <[x:=_]> _).
    assert (Hnew : deref h' nl = mkNode v None (Some x)).
    { unfold h'. by rewrite deref_insert_ne, deref_insert_eq. }
    assert (Hlast : deref h' x =
      mkNode (value (deref h x)) (Some nl) (prevNode (deref h x))).
    { unfold h'. by rewrite deref_insert_eq. }
    assert (Hold : ∀ l, l ∈ ls' → deref h' l = deref h l).
    { intros l Hl. unfold h'.
      assert (l ≠ x).
      { intros ->. apply NoDup_app in Hnd as (_ & Hnd & _).
        apply (Hnd x); [done|by left]. }
      assert (l ≠ nl).
      { intros ->. apply Hfresh, elem_of_app. by left. }
      by rewrite !deref_insert_ne. }
    pose proof (Rep_insert h h' nl m _ _ _ _ v HRep Hhas Hnd' Hin Hlen) as HR.
    rewrite last_snoc, head_app, Hhd in HR. apply HR.
    + by rewrite Hnew.
    + intros l [Hl| ->%list_elem_of_singleton]%elem_of_app.
      * by rewrite Hold.
      * by rewrite Hlast.
    + apply dlseg_app. rewrite last_snoc. simpl. rewrite Hnew.
      split; [|done].
      apply (dlseg_retarget_next h _ _ _ _ None); [done|by rewrite Hlast..|done].
Qed.

Lemma Rep_addFirst this ls v :
  Rep this ls → has this v = false → Rep (addFirst v this) (nextLoc this :: ls).
Proof.
  intros HRep Hhas. pose proof HRep as [Hnd Hal Hlk Hfst Hlst Hidx Hsz].
  unfold addFirst. rewrite Hhas. apply has_false in Hhas.
  destruct this as [h nl m fst lst].
  cbn [store nextLoc _setMap _firstNode _lastNode new_Node] in *. subst fst lst.
  assert (Hfresh : nl ∉ ls) by (intros Hin; apply Hal in Hin; lia).
  assert (Hnd' : NoDup (nl :: ls)) by (by apply NoDup_cons).
  assert (Hin : ∀ l, l ∈ nl :: ls ↔ l = nl ∨ l ∈ ls) by (intros l; apply elem_of_cons).
  unfold write_lastNode, write_firstNode, write_nextNode, write_prevNode,
    write_setMap, JsMap.set.
  cbn [store nextLoc _setMap _firstNode _lastNode].
  destruct ls as [|x ls'].
  - cbn [last head store nextLoc _setMap _firstNode _lastNode].
    apply (Rep_insert h _ nl m None None [] [nl] v HRep Hhas Hnd' Hin eq_refl).
    + by rewrite deref_insert_eq.
    + by intros l Hl%elem_of_nil.
    + simpl. by rewrite deref_insert_eq.
  - cbn [head].
    destruct (last (x :: ls')) as [la|] eqn:Hla; [|by apply last_None in Hla].
    cbn [store nextLoc _setMap _firstNode _lastNode].
    assert (Hx : x ≠ nl).
    { intros ->. apply Hfresh. by left. }
    rewrite !deref_insert_eq, (deref_insert_ne _ nl x), deref_insert_ne by done.
    set (h' := <[x:=_]> _).
    assert (Hnew : deref h' nl = mkNode v (Some x) None).
    { unfold h'. by rewrite deref_insert_ne, deref_insert_eq. }
    assert (Hhead : deref h' x =
      mkNode (value (deref h x)) (nextNode (deref h x)) (Some nl)).
    { unfold h'. by rewrite deref_insert_eq. }
    assert (Hold : ∀ l, l ∈ ls' → deref h' l = deref h l).
    { intros l Hl. unfold h'.
      assert (l ≠ x).
      { intros ->. by apply NoDup_cons in Hnd as [Hnd _]. }
      assert (l ≠ nl).
      { intros ->. apply Hfresh. by right. }
      by rewrite !deref_insert_ne. }
    pose proof (Rep_insert h h' nl m _ _ _ _ v HRep Hhas Hnd' Hin eq_refl) as HR.
    rewrite last_cons, Hla in HR. apply HR.
    + by rewrite Hnew.
    + intros l [->|Hl]%elem_of_cons.
      * by rewrite Hhead.
      * by rewrite Hold.
    + cbn [dlseg]. rewrite Hnew. split; [done|]. split; [done|].
      apply (dlseg_retarget_prev h _ None (Some nl) x ls' None);
        [done|by rewrite Hhead..|done].
Qed.

(** Unlinking one node: what is left to show once the new store is known
    to link the remaining nodes. *)
Lemma Rep_remove h h' nl m f la pre l post v :
  Rep (mkSet h nl m f la) (pre ++ l :: post) →
  m !! v = Some l →
  (∀ l', value (deref h' l') = value (deref h l')) →
  dlseg h' None (pre ++ post) None →
  Rep (mkSet h' nl (base.delete v m) (head (pre ++ post)) (last (pre ++ post)))
      (pre ++ post).
Proof.
  intros [Hnd Hal Hlk Hfst Hlst Hidx Hsz] Hm Hval Hlk'. simpl in *.
  assert (Hl : l ∉ pre ++ post).
  { apply NoDup_app in Hnd as (_ & Hdisj & [Hpost _]%NoDup_cons).
    intros [Hin|Hin]%elem_of_app; [|done].
    apply (Hdisj l Hin). by left. }
  assert (Hlv : value (deref h l) = v).
  { by apply Hidx in Hm as [_ ?]. }
  split; simpl; try done.
  - apply NoDup_app in Hnd as (? & Hdisj & [_ ?]%NoDup_cons).
    apply NoDup_app. split_and!; [done| |done].
    intros x Hx Hx'. apply (Hdisj x Hx). by right.
  - intros x Hx. apply Hal.
    apply elem_of_app in Hx as [?|?]; apply elem_of_app; [by left|].
    right. by right.
  - intros v' l'. rewrite lookup_delete, Hval. case_decide as Hv.
    + subst v'. split; [done|]. intros [Hin Hv'].
      assert (m !! v = Some l') as Hm'; [|congruence].
      apply Hidx. split; [|done].
      apply elem_of_app in Hin as [?|?]; apply elem_of_app; [by left|].
      right. by right.
    + rewrite Hidx. split.
      * intros [Hin Hv']. split; [|done].
        apply elem_of_app in Hin as [?|[->|?]%elem_of_cons];
          apply elem_of_app; [by left|congruence|by right].
      * intros [Hin Hv']. split; [|done].
        apply elem_of_app in Hin as [?|?]; apply elem_of_app; [by left|].
        right. by right.
  - rewrite map_size_delete_Some by done.
    rewrite !length_app in *. simpl in *. lia.
Qed.

Lemma head_snoc_app {A} (a : list A) p b : head ((a ++ [p]) ++ b) = head (a ++ [p]).
Proof. by destruct a. Qed.

Lemma Rep_delete this pre l post v :
  Rep this (pre ++ l :: post) →
  _setMap this !! v = Some l →
  fst (delete v this) = true ∧
  Rep (snd (delete v this)) (pre ++ post) ∧
  ∀ l', value (deref (store (snd (delete v this))) l') = value (deref (store this) l').
Proof.
  intros HRep Hm.
  pose proof HRep as [Hnd Hal Hlk Hfst Hlst Hidx Hsz].
  destruct (dlseg_focus _ _ _ _ _ _ Hlk) as [Hprev Hnext].
  unfold delete, JsMap.get. rewrite Hm.
  destruct this as [h nl m f la].
  cbn [store _setMap _firstNode _lastNode nextLoc] in *. subst f la.
  rewrite Hprev, Hnext.
  unfold JsMap.delete, JsMap.has.
  assert (Hb : bool_decide (is_Some (m !! v)) = true).
  { apply bool_decide_eq_true. by exists l. }
  destruct pre as [|p pre' _] using rev_ind; destruct post as [|n post'];
    rewrite ?last_snoc in *; cbn [or_else head last]; cbn [or_else head last] in Hprev, Hnext.
  - (* the only node *)
    split; [exact Hb|]. split; [|done].
    by eapply (Rep_remove h h nl m _ _ [] l [] v).
  - (* the first node *)
    assert (n ≠ l).
    { intros ->. apply NoDup_cons in Hnd as [Hnd _]. apply Hnd. by left. }
    unfold write_firstNode, write_prevNode, write_setMap.
    cbn [store _setMap _firstNode _lastNode nextLoc fst snd].
    split; [exact Hb|].
    rewrite deref_insert_ne by done. rewrite Hnext.
    set (h' := <[n:=_]> h).
    assert (Hval : ∀ l', value (deref h' l') = value (deref h l')).
    { intros l'. unfold h'. rewrite deref_insert. by case_decide; subst. }
    split; [|done].
    eapply (Rep_remove h h' nl m _ _ [] l (n :: post') v); [done..|].
    destruct Hlk as (_ & _ & Hlk).
    apply (dlseg_retarget_prev h _ (Some l));
      [|unfold h'; by rewrite deref_insert_eq..|done].
    intros l' Hl'. unfold h'. apply deref_insert_ne.
    intros ->. apply NoDup_cons in Hnd as [_ Hnd].
    by apply NoDup_cons in Hnd as [Hnd _].
  - (* the last node *)
    assert (p ≠ l).
    { intros ->. apply NoDup_app in Hnd as (_ & Hnd & _).
      apply (Hnd l); [|by left]. apply elem_of_app. right. by left. }
    unfold write_lastNode, write_nextNode, write_setMap.
    cbn [store _setMap _firstNode _lastNode nextLoc fst snd].
    split; [exact Hb|].
    rewrite deref_insert_ne by done. rewrite Hprev.
    set (h' := <[p:=_]> h).
    assert (Hval : ∀ l', value (deref h' l') = value (deref h l')).
    { intros l'. unfold h'. rewrite deref_insert. by case_decide; subst. }
    split; [|done].
    pose proof (Rep_remove h h' nl m _ _ (pre' ++ [p]) l [] v HRep Hm Hval) as HR.
    rewrite (right_id_L [] (++)) in *.
    rewrite last_snoc in HR. rewrite head_snoc_app.
    apply HR.
    apply dlseg_app in Hlk as [Hlk _].
    apply (dlseg_retarget_next h _ _ _ _ (Some l));
      [|unfold h'; by rewrite deref_insert_eq..|done].
    intros l' Hl'. unfold h'. apply deref_insert_ne.
    intros ->. apply NoDup_app in Hnd as (Hnd & _ & _).
    apply NoDup_app in Hnd as (_ & Hnd & _).
    apply (Hnd l'); [done|by left].
  - (* a node in the middle *)
    assert (p ≠ l).
    { intros ->. apply NoDup_app in Hnd as (_ & Hnd & _).
      apply (Hnd l); [|by left]. apply elem_of_app. right. by left. }
    assert (n ≠ l).
    { intros ->. apply NoDup_app in Hnd as (_ & _ & Hnd).
      apply NoDup_cons in Hnd as [Hnd _]. apply Hnd. by left. }
    assert (p ≠ n).
    { intros ->. apply NoDup_app in Hnd as (_ & Hnd & _).
      apply (Hnd n); [|right; by left]. apply elem_of_app. right. by left. }
    unfold write_prevNode, write_nextNode, write_setMap.
    cbn [store _setMap _firstNode _lastNode nextLoc fst snd].
    split; [exact Hb|].
    rewrite !(deref_insert_ne _ p l) by done. rewrite Hprev.
    rewrite (deref_insert_ne _ p n) by done.
    set (h' := <[n:=_]> _).
    assert (Hval : ∀ l', value (deref h' l') = value (deref h l')).
    { intros l'. unfold h'. rewrite !deref_insert.
      repeat case_decide; by subst. }
    split; [|done].
    pose proof (Rep_remove h h' nl m _ _ (pre' ++ [p]) l (n :: post') v HRep Hm Hval) as HR.
    rewrite !head_snoc_app in *. rewrite !last_app_cons in *.
    apply HR. clear HR.
    apply dlseg_app in Hlk as [Hpre Hpost]. rewrite last_snoc in Hpost.
    destruct Hpost as (_ & _ & Hpost). cbn [head or_else] in Hpre.
    apply dlseg_app. rewrite last_snoc. cbn [head or_else]. split.
    + apply (dlseg_retarget_next h _ _ _ _ (Some l)); [| | |done].
      * intros l' Hl'. unfold h'.
        assert (l' ≠ p).
        { intros ->. apply NoDup_app in Hnd as (Hnd & _ & _).
          apply NoDup_app in Hnd as (_ & Hnd & _).
          apply (Hnd p); [done|by left]. }
        assert (l' ≠ n).
        { intros ->. apply NoDup_app in Hnd as (_ & Hnd & _).
          apply (Hnd n); [|right; by left]. apply elem_of_app. by left. }
        by rewrite !deref_insert_ne.
      * unfold h'. by rewrite deref_insert_ne, deref_insert_eq.
      * unfold h'. by rewrite deref_insert_ne, deref_insert_eq.
    + apply (dlseg_retarget_prev h _ (Some l)); [| | |done].
      * intros l' Hl'. unfold h'.
        assert (l' ≠ p).
        { intros ->. apply NoDup_app in Hnd as (_ & Hnd & _).
          apply (Hnd p); [|right; by right]. apply elem_of_app. right. by left. }
        assert (l' ≠ n).
        { intros ->. apply NoDup_app in Hnd as (_ & _ & Hnd).
          apply NoDup_cons in Hnd as [_ Hnd].
          by apply NoDup_cons in Hnd as [Hnd _]. }
        by rewrite !deref_insert_ne.
      * unfold h'. by rewrite deref_insert_eq.
      * unfold h'. by rewrite deref_insert_eq.
Qed.

Lemma Rep_add_present this v : has this v = true → add v this = this.
Proof. intros Hhas. unfold add. by rewrite Hhas. Qed.

Lemma Rep_construct iterable : ∃ ls, Rep (construct iterable) ls.
Proof.
  destruct iterable as [elems|]; simpl; [|exists []; apply Rep_empty].
  induction elems as [|e elems IH] using rev_ind; simpl.
  - exists []. apply Rep_empty.
  - rewrite foldl_snoc. destruct IH as [ls IH].
    destruct (has (foldl (λ this element, add element this) empty_set elems) e) eqn:Hhas.
    + exists ls. by rewrite Rep_add_present.
    + eexists. by apply Rep_add.
Qed.

Lemma Rep_apply_op o this ls : Rep this ls → ∃ ls', Rep (apply_op o this) ls'.
Proof.
  intros HRep. destruct o as [v|v|v|]; simpl.
  - destruct (has this v) eqn:Hhas.
    + exists ls. by rewrite Rep_add_present.
    + eexists. by apply Rep_add.
  - destruct (has this v) eqn:Hhas.
    + exists ls. unfold addFirst. by rewrite Hhas.
    + eexists. by apply Rep_addFirst.
  - destruct (_setMap this !! v) as [l|] eqn:Hm.
    + assert (l ∈ ls) as (pre & post & ->)%list_elem_of_split.
      { by apply (rep_index _ _ HRep) in Hm as [? _]. }
      exists (pre ++ post). by apply (Rep_delete this pre l post v).
    + exists ls. unfold delete, JsMap.get. by rewrite Hm.
  - exists []. apply Rep_clear.
Qed.

(** Every reachable set has a chain that represents it. *)
Lemma reachable_Rep this : reachable this → ∃ ls, Rep this ls.
Proof.
  induction 1 as [iterable|o this _ [ls IH]].
  - apply Rep_construct.
  - by apply (Rep_apply_op _ _ ls).
Qed.

(** ** The chain seen through [walk] *)

Lemma or_else_None a : or_else a None = a.
Proof. by destruct a. Qed.

Lemma walk_None fuel h : walk fuel h None = [].
Proof. by destruct fuel. Qed.

Lemma walk_dlseg h p ls fuel :
  dlseg h p ls None → length ls ≤ fuel → walk fuel h (head ls) = ls.
Proof.
  revert p fuel. induction ls as [|l ls IH]; intros p fuel Hlk Hfuel.
  - apply walk_None.
  - destruct fuel as [|fuel]; simpl in *; [lia|].
    destruct Hlk as (_ & -> & Hlk). rewrite or_else_None.
    f_equal. apply (IH (Some l)); [done|lia].
Qed.

Lemma walk_back_None fuel h : walk_back fuel h None = [].
Proof. by destruct fuel. Qed.

Lemma walk_back_dlseg h ls n fuel :
  dlseg h None ls n → length ls ≤ fuel → walk_back fuel h (last ls) = reverse ls.
Proof.
  revert n fuel. induction ls as [|l ls IH] using rev_ind; intros n fuel Hlk Hfuel.
  - apply walk_back_None.
  - rewrite length_app in Hfuel. simpl in Hfuel.
    destruct fuel as [|fuel]; [lia|].
    rewrite last_snoc, reverse_snoc. simpl.
    apply dlseg_app in Hlk as [Hlk (Hp & _)]. rewrite Hp, or_else_None.
    f_equal. apply (IH (Some l)); [done|lia].
Qed.

Lemma Rep_nodes this ls : Rep this ls → nodes this = ls.
Proof.
  intros [_ _ Hlk Hfst _ _ Hsz]. unfold nodes, size, JsMap.size.
  rewrite Hfst. apply (walk_dlseg _ None); [done|lia].
Qed.

Lemma Rep_size this ls : Rep this ls → size this = length ls.
Proof. intros HRep. apply (rep_size _ _ HRep). Qed.

Lemma Rep_elements this ls :
  Rep this ls → elements this = (λ l, value (deref (store this) l)) <$> ls.
Proof. intros HRep. unfold elements. by rewrite (Rep_nodes _ ls). Qed.

Lemma Rep_value_inj this ls l1 l2 :
  Rep this ls → l1 ∈ ls → l2 ∈ ls →
  value (deref (store this) l1) = value (deref (store this) l2) → l1 = l2.
Proof.
  intros HRep H1 H2 Heq.
  assert (_setMap this !! value (deref (store this) l1) = Some l1) as Hm1.
  { by apply (rep_index _ _ HRep). }
  assert (_setMap this !! value (deref (store this) l1) = Some l2) as Hm2.
  { by apply (rep_index _ _ HRep). }
  congruence.
Qed.

Lemma Rep_elements_NoDup this ls : Rep this ls → NoDup (elements this).
Proof.
  intros HRep. rewrite (Rep_elements _ ls) by done.
  apply NoDup_fmap_2_strong; [|apply (rep_nodup _ _ HRep)].
  intros l1 l2 H1 H2. by apply (Rep_value_inj this ls).
Qed.

Lemma Rep_has this ls v : Rep this ls → has this v = true ↔ v ∈ elements this.
Proof.
  intros HRep. rewrite has_true, (Rep_elements _ ls), list_elem_of_fmap by done.
  split.
  - intros [l Hl]. apply (rep_index _ _ HRep) in Hl as [? ?]. by exists l.
  - intros (l & -> & Hl). exists l. by apply (rep_index _ _ HRep).
Qed.

(** ** Stepping an iterator along the chain *)

Lemma next_exhausted h it :
  currentNode it = None → Iterator.next h it = (iteratorResult undefined, it).
Proof. intros Hcur. unfold Iterator.next. by rewrite Hcur. Qed.

Lemma drain_exhausted n h it :
  currentNode it = None → drain n h it = (replicate n (iteratorResult undefined), it).
Proof.
  intros Hcur. induction n as [|n IH]; simpl; [done|].
  by rewrite next_exhausted, IH.
Qed.

Lemma drain_app n k h it :
  drain (n + k) h it =
  (fst (drain n h it) ++ fst (drain k h (snd (drain n h it))),
   snd (drain k h (snd (drain n h it)))).
Proof.
  revert it. induction n as [|n IH]; intros it; simpl.
  - by destruct (drain k h it).
  - destruct (Iterator.next h it) as [r it1]. rewrite IH.
    destruct (drain n h it1) as [rs it2]. simpl.
    by destruct (drain k h it2).
Qed.

(** [next()] assigns [currentNode] only, so what [reverseIterator()] does
    is independent of how far the iterator has advanced. *)
Lemma reverseIterator_next h it :
  Iterator.reverseIterator (snd (Iterator.next h it)) = Iterator.reverseIterator it.
Proof. unfold Iterator.next. by destruct (currentNode it). Qed.

Lemma reverseIterator_drain n h it :
  Iterator.reverseIterator (snd (drain n h it)) = Iterator.reverseIterator it.
Proof.
  revert it. induction n as [|n IH]; intros it; simpl; [done|].
  pose proof (reverseIterator_next h it) as Hnext.
  destruct (Iterator.next h it) as [r it1]. specialize (IH it1).
  destruct (drain n h it1) as [rs it2]. simpl in *. congruence.
Qed.

Section walking.
Context (h : gmap loc ReverseIterableSetNode).
Context (g : ReverseIterableSetNode → JsValue) (sN lN : option loc).

(** Forward over [mid], a stretch of the chain. *)
Lemma drain_forward p pre mid post :
  dlseg h p (pre ++ mid ++ post) None →
  drain (length mid) h (mkIter g sN lN (head (mid ++ post)) true) =
  (result_at h g <$> mid, mkIter g sN lN (head post) true).
Proof.
  revert pre. induction mid as [|l mid IH]; intros pre Hlk; [done|].
  destruct (dlseg_focus h p pre l (mid ++ post) None Hlk) as [_ Hnext].
  rewrite or_else_None in Hnext.
  cbn [length drain app]. unfold Iterator.next at 1.
  cbn [currentNode forwards getIteratorValue startNode lastNode head].
  rewrite Hnext, (IH (pre ++ [l])); [done|].
  by rewrite <- (assoc_L (++)).
Qed.

(** Backward over [mid]. *)
Lemma drain_backward pre mid post n :
  dlseg h None (pre ++ mid ++ post) n →
  drain (length mid) h (mkIter g sN lN (last (pre ++ mid)) false) =
  (result_at h g <$> reverse mid, mkIter g sN lN (last pre) false).
Proof.
  revert post. induction mid as [|l mid IH] using rev_ind; intros post Hlk.
  { by rewrite (right_id_L [] (++)). }
  replace (pre ++ (mid ++ [l]) ++ post) with ((pre ++ mid) ++ l :: post) in Hlk
    by (by rewrite <- !(assoc_L (++))).
  rewrite (assoc_L (++) pre mid [l]).
  destruct (dlseg_focus h None (pre ++ mid) l post n Hlk) as [Hprev _].
  rewrite or_else_None in Hprev.
  rewrite length_app, Nat.add_comm, last_snoc, reverse_snoc.
  cbn [length drain Nat.add]. unfold Iterator.next at 1.
  cbn [currentNode forwards getIteratorValue startNode lastNode].
  rewrite Hprev, (IH (l :: post)); [done|].
  by rewrite <- (assoc_L (++)) in Hlk.
Qed.
End walking.

(** Spread stops at the first result that has [done] set. *)
Lemma collect_drain n h it fuel :
  Forall (λ r, IteratorResult.done r = false) (fst (drain n h it)) →
  IteratorResult.done (fst (Iterator.next h (snd (drain n h it)))) = true →
  n < fuel →
  collect fuel h it = Some (IteratorResult.value <$> fst (drain n h it)).
Proof.
  revert it fuel. induction n as [|n IH]; intros it fuel Hrs Hend Hfuel;
    (destruct fuel as [|fuel]; [lia|]); simpl in *.
  - destruct (Iterator.next h it) as [r it1]. simpl in *. by rewrite Hend.
  - destruct (Iterator.next h it) as [r it1].
    specialize (IH it1 fuel).
    destruct (drain n h it1) as [rs it2]. simpl in *.
    apply Forall_cons in Hrs as [-> Hrs].
    rewrite IH; [done..|lia].
Qed.

(** ** The iterators of a set *)

Lemma or_else_eq (a b : option loc) :
  match a with Some n => Some n | None => b end = or_else a b.
Proof. done. Qed.

(** What stays fixed, and where the position can be, for any iterator of
    a set with chain [ls]. *)
Lemma iterator_of_inv this ls it :
  Rep this ls → iterator_of this it →
  (∀ l, currentNode it = Some l → l ∈ ls) ∧
  (∀ l, startNode it = Some l → l ∈ ls) ∧
  lastNode it = last ls ∧
  (getIteratorValue it = (λ node, JPrim (value node)) ∨
   getIteratorValue it = (λ node, JTuple (value node) (value node))).
Proof.
  intros HRep Hit.
  induction Hit as [| |v|it Hit (IHc & IHs & IHl & IHg)|it Hit (IHc & IHs & IHl & IHg)];
    simpl.
  - split_and!; [|done|apply (rep_last _ _ HRep)|by left].
    intros l. rewrite (rep_first _ _ HRep). apply head_Some_elem_of.
  - split_and!; [|done|apply (rep_last _ _ HRep)|by right].
    intros l. rewrite (rep_first _ _ HRep). apply head_Some_elem_of.
  - assert (∀ l, JsMap.get (_setMap this) v = Some l → l ∈ ls) as Hstart.
    { intros l Hl. by apply (rep_index _ _ HRep) in Hl as [? _]. }
    split_and!; [|done|apply (rep_last _ _ HRep)|by left].
    intros l. destruct (JsMap.get (_setMap this) v) as [l'|]; [by apply Hstart|].
    rewrite (rep_first _ _ HRep). apply head_Some_elem_of.
  - split_and!; [|done..].
    intros l. destruct (startNode it) as [l'|]; [by apply IHs|].
    rewrite IHl. apply last_Some_elem_of.
  - unfold Iterator.next.
    destruct (currentNode it) as [cur|] eqn:Hcur; simpl; [|by rewrite Hcur].
    split_and!; [|done..].
    destruct (list_elem_of_split ls cur (IHc cur eq_refl)) as (pre & post & ->).
    destruct (dlseg_focus _ _ _ _ _ _ (rep_links _ _ HRep)) as [Hprev Hnext].
    rewrite or_else_None in Hprev, Hnext.
    intros l. destruct (forwards it).
    + rewrite Hnext. intros Hl%head_Some_elem_of.
      apply elem_of_app. right. by right.
    + rewrite Hprev. intros Hl%last_Some_elem_of.
      apply elem_of_app. by left.
Qed.

Lemma values_drain this pre post :
  Rep this (pre ++ post) →
  drain (length pre) (store this) (values this) =
  ((λ x, iteratorResult (JPrim x)) <$> ((λ l, value (deref (store this) l)) <$> pre),
   mkIter (λ node, JPrim (value node)) None (_lastNode this) (head post) true).
Proof.
  intros HRep. unfold values, _iterableIterator.
  rewrite (rep_first _ _ HRep), <- list_fmap_compose.
  apply (drain_forward (store this) (λ node, JPrim (value node)) _ _ None [] pre post),
    (rep_links _ _ HRep).
Qed.

(** After [reverseIterator()], an iterator that was handed out without a
    start node walks back from the last node of the chain. *)
Lemma reverse_drain this it pre mid post :
  Rep this (pre ++ mid ++ post) →
  or_else (startNode it) (lastNode it) = last (pre ++ mid) →
  drain (length mid) (store this) (Iterator.reverseIterator it) =
  (result_at (store this) (getIteratorValue it) <$> reverse mid,
   mkIter (getIteratorValue it) (startNode it) (lastNode it) (last pre) false).
Proof.
  intros HRep Hanchor. unfold Iterator.reverseIterator.
  rewrite or_else_eq, Hanchor.
  apply (drain_backward _ _ _ _ _ _ post None), (rep_links _ _ HRep).
Qed.

Lemma Rep_elements_split this ls xs ys :
  Rep this ls → elements this = xs ++ ys →
  ∃ pre post, ls = pre ++ post ∧
    xs = (λ l, value (deref (store this) l)) <$> pre ∧
    ys = (λ l, value (deref (store this) l)) <$> post.
Proof.
  intros HRep. rewrite (Rep_elements _ ls) by done.
  intros (pre & post & -> & -> & ->)%fmap_app_inv. by exists pre, post.
Qed.

Lemma not_undefined_JPrim x : x ≠ PUndefined → is_undefined (JPrim x) = false.
Proof. by destruct x. Qed.

Lemma is_undefined_true v : is_undefined v = true ↔ v = undefined.
Proof. destruct v as [[]|]; by split. Qed.

(** ** The embedding run on cases of the test suite *)

(** 'set.addFirst()' *)
Example test_addFirst :
  let set := addFirst (PNum (-4)) (addFirst (PNum (-3)) (addFirst (PNum (-2))
               (addFirst (PNum (-1)) (add (PNum 2) (add (PNum 1) (add (PNum 0)
               (construct None))))))) in
  spread set (values set) =
    Some (JPrim <$> [PNum (-4); PNum (-3); PNum (-2); PNum (-1); PNum 0; PNum 1; PNum 2]).
Proof. by vm_compute. Qed.

(** 'set.delete() node at the start', 'in the middle', 'at the end' *)
Example test_delete_positions :
  (λ v, let '(r, set) := delete (PNum v) one_two_three in
        (r, size set, spread set (values set))) <$> [1; 2; 3; 137]%Z =
  [(true, 2, Some [JPrim (PNum 2); JPrim (PNum 3)]);
   (true, 2, Some [JPrim (PNum 1); JPrim (PNum 3)]);
   (true, 2, Some [JPrim (PNum 1); JPrim (PNum 2)]);
   (false, 3, Some [JPrim (PNum 1); JPrim (PNum 2); JPrim (PNum 3)])].
Proof. by vm_compute. Qed.

(** 'set.delete() with a single entry' and 'set.clear()' *)
Example test_delete_single_clear :
  let set := construct (Some [PNum 1]) in
  delete (PNum 1) set =
    (true, mkSet (store set) (nextLoc set) ∅ None None) ∧
  size (clear abc) = 0.
Proof. split; by vm_compute. Qed.

(** 'set.entries().reverseIterator()' *)
Example test_entries_reverse :
  fst (drain 4 (store abc) (Iterator.reverseIterator (entries abc))) =
  [IteratorResult.mk (JTuple (PStr "c") (PStr "c")) false;
   IteratorResult.mk (JTuple (PStr "b") (PStr "b")) false;
   IteratorResult.mk (JTuple (PStr "a") (PStr "a")) false;
   IteratorResult.mk undefined true].
Proof. by vm_compute. Qed.

(** * The claims *)

(** C7.  For the set built by inserting a, b, c, d, e in this order,
    [iteratorFor('c')] yields exactly c, d, e, and
    [iteratorFor('c').reverseIterator()] yields exactly c, b, a. *)
Theorem anchor_semantics_abcde :
  spread abcde (iteratorFor abcde (PStr "c")) =
    Some [JPrim (PStr "c"); JPrim (PStr "d"); JPrim (PStr "e")] ∧
  spread abcde (Iterator.reverseIterator (iteratorFor abcde (PStr "c"))) =
    Some [JPrim (PStr "c"); JPrim (PStr "b"); JPrim (PStr "a")].
Proof. split; by vm_compute. Qed.

(** C1, as stated, fails: in the set of a, b, c the value z is absent,
    and the first step of [iteratorFor('z')] yields the element a and is
    not done. *)
Lemma iteratorFor_absent_yields_first :
  has abc (PStr "z") = false ∧
  fst (Iterator.next (store abc) (iteratorFor abc (PStr "z"))) =
    IteratorResult.mk (JPrim (PStr "a")) false.
Proof. split; by vm_compute. Qed.

(** C1, amended.  For every set and every value [v] not present in it,
    [iteratorFor(v)] is the iterator that [values()] returns: it starts at
    the first node, its steps yield every element of the set in insertion
    order, and it starts out exhausted exactly when the set is empty. *)
Theorem iteratorFor_absent this v :
  reachable this → has this v = false →
  iteratorFor this v = values this ∧
  fst (drain (size this) (store this) (iteratorFor this v)) =
    (λ x, iteratorResult (JPrim x)) <$> elements this ∧
  (currentNode (iteratorFor this v) = None ↔ size this = 0).
Proof.
  intros [ls HRep]%reachable_Rep Hhas.
  assert (iteratorFor this v = values this) as ->.
  { unfold iteratorFor. apply has_false in Hhas. unfold JsMap.get. by rewrite Hhas. }
  split; [done|]. split.
  - rewrite (Rep_size _ ls), (Rep_elements _ ls) by done.
    rewrite (values_drain this ls []); [done|]. by rewrite (right_id_L [] (++)).
  - simpl. rewrite (rep_first _ _ HRep), (Rep_size _ ls) by done.
    rewrite head_None. split; [by intros ->|apply nil_length_inv].
Qed.

(** The amended C1 at the set a, b, c and the absent value z. *)
Lemma iteratorFor_absent_witness :
  iteratorFor abc (PStr "z") = values abc ∧
  fst (drain (size abc) (store abc) (iteratorFor abc (PStr "z"))) =
    (λ x, iteratorResult (JPrim x)) <$> elements abc ∧
  (currentNode (iteratorFor abc (PStr "z")) = None ↔ size abc = 0).
Proof.
  apply (iteratorFor_absent abc (PStr "z")).
  - apply reachable_construct.
  - by vm_compute.
Defined.

(** Steps over elements other than [undefined] are not done. *)
Lemma results_not_done (xs : list Prim) :
  PUndefined ∉ xs →
  Forall (λ r, IteratorResult.done r = false) ((λ x, iteratorResult (JPrim x)) <$> xs).
Proof.
  intros Hxs. apply Forall_fmap, Forall_forall. intros x Hx. simpl.
  apply not_undefined_JPrim. by intros ->.
Qed.

Lemma results_values (xs : list Prim) :
  IteratorResult.value <$> ((λ x, iteratorResult (JPrim x)) <$> xs) = JPrim <$> xs.
Proof. by rewrite <- list_fmap_compose. Qed.

(** Spread over an iterator whose steps run over [xs] and then off the
    chain. *)
Lemma collect_results n h it fuel xs it' :
  drain n h it = ((λ x, iteratorResult (JPrim x)) <$> xs, it') →
  PUndefined ∉ xs → currentNode it' = None → n < fuel →
  collect fuel h it = Some (JPrim <$> xs).
Proof.
  intros Hd Hxs Hend Hfuel.
  rewrite (collect_drain n); rewrite ?Hd; simpl.
  - by rewrite results_values.
  - by apply results_not_done.
  - by rewrite next_exhausted.
  - done.
Qed.

(** C6, as stated, fails: for [new ReverseIterableSet([undefined, 1])]
    spreading [values()] gives the empty list, spreading
    [reverseIterator()] gives the list of 1, which is not its reversal. *)
Lemma reverse_not_mirror_undefined_first :
  spread undefined_first (values undefined_first) = Some [] ∧
  spread undefined_first (reverseIterator undefined_first) = Some [JPrim (PNum 1)] ∧
  spread undefined_first (reverseIterator undefined_first) ≠
    reverse <$> spread undefined_first (values undefined_first).
Proof. split_and!; by vm_compute. Qed.

(** C6, amended.  For every set that does not contain the value
    [undefined], collecting [reverseIterator()] yields exactly the
    reversal of the list collected from [values()], which is the list of
    the elements in insertion order. *)
Theorem reverse_mirrors_forward this fuel :
  reachable this → has this PUndefined = false → size this < fuel →
  collect fuel (store this) (values this) = Some (JPrim <$> elements this) ∧
  collect fuel (store this) (reverseIterator this) =
    Some (reverse (JPrim <$> elements this)).
Proof.
  intros Hreach Hundef Hfuel.
  destruct (reachable_Rep _ Hreach) as [ls HRep].
  assert (PUndefined ∉ elements this) as Hnot.
  { rewrite <- (Rep_has _ ls) by done. by rewrite Hundef. }
  rewrite (Rep_size _ ls) in Hfuel by done.
  rewrite (Rep_elements _ ls) in * by done.
  split.
  - apply (collect_results (length ls) _ _ _ _ _
      (values_drain this ls [] ltac:(by rewrite (right_id_L [] (++))))); done.
  - unfold reverseIterator.
    assert (or_else (startNode (values this)) (lastNode (values this)) = last ([] ++ ls))
      as Hanchor by apply (rep_last _ _ HRep).
    pose proof (reverse_drain this (values this) [] ls []
      ltac:(by rewrite (right_id_L [] (++))) Hanchor) as Hd.
    assert (result_at (store this) (getIteratorValue (values this)) <$> reverse ls =
            (λ x, iteratorResult (JPrim x)) <$>
              reverse ((λ l, value (deref (store this) l)) <$> ls)) as Hres.
    { by rewrite <- fmap_reverse, <- list_fmap_compose. }
    rewrite Hres in Hd. rewrite <- fmap_reverse.
    apply (collect_results (length ls) _ _ _ _ _ Hd); [|done..].
    by rewrite elem_of_reverse.
Qed.

(** The amended C6 at the set a, b, c. *)
Lemma reverse_mirrors_forward_witness :
  collect 4 (store abc) (values abc) = Some (JPrim <$> elements abc) ∧
  collect 4 (store abc) (reverseIterator abc) = Some (reverse (JPrim <$> elements abc)).
Proof.
  apply (reverse_mirrors_forward abc 4).
  - apply reachable_construct.
  - by vm_compute.
  - vm_compute. lia.
Defined.

Lemma iterator_of_drain this n it :
  iterator_of this it → iterator_of this (snd (drain n (store this) it)).
Proof.
  revert it. induction n as [|n IH]; intros it Hit; simpl; [done|].
  pose proof (iterator_of_next this it Hit) as Hnext.
  destruct (Iterator.next (store this) it) as [r it1]. specialize (IH it1 Hnext).
  by destruct (drain n (store this) it1).
Qed.

(** C2, as stated, fails: for [new ReverseIterableSet([1, undefined, 2])]
    the second [next()] of [values()] reports the end of the sequence and
    the third one yields 2 and is not done. *)
Lemma exhaustion_not_sticky_undefined_between :
  fst (drain 3 (store undefined_between) (values undefined_between)) =
    [IteratorResult.mk (JPrim (PNum 1)) false;
     IteratorResult.mk undefined true;
     IteratorResult.mk (JPrim (PNum 2)) false].
Proof. by vm_compute. Qed.

(** C2, amended.  For every iterator obtained from [values()],
    [entries()], [reverseIterator()] or [iteratorFor(value)] of a set that
    does not contain [undefined], and for every [entries()] iterator of
    any set: once a call of [next()] reports the end of the sequence, that
    call yields no value and leaves the iterator as it was, and every
    later call of [next()], whatever the store of nodes has become, again
    reports the end, yields no value and leaves the iterator as it is. *)
Theorem exhaustion_sticky this it :
  reachable this → iterator_of this it →
  has this PUndefined = false ∨
    (∀ node, is_undefined (getIteratorValue it node) = false) →
  IteratorResult.done (fst (Iterator.next (store this) it)) = true →
  Iterator.next (store this) it = (iteratorResult undefined, it) ∧
  ∀ n h', drain n h' it = (replicate n (iteratorResult undefined), it).
Proof.
  intros Hreach Hit Hno Hdone.
  destruct (reachable_Rep _ Hreach) as [ls HRep].
  destruct (iterator_of_inv _ _ _ HRep Hit) as (Hcur & _ & _ & Hg).
  destruct (currentNode it) as [cur|] eqn:Hc.
  - exfalso. unfold Iterator.next in Hdone. rewrite Hc in Hdone. simpl in Hdone.
    destruct Hno as [Hno|Hno]; [|by rewrite Hno in Hdone].
    destruct Hg as [Hg|Hg]; rewrite Hg in Hdone; [|done].
    assert (has this PUndefined = true); [|congruence].
    apply (Rep_has _ ls); [done|].
    rewrite (Rep_elements _ ls) by done. apply list_elem_of_fmap.
    exists cur. split; [|by apply Hcur].
    by destruct (value (deref (store this) cur)).
  - split; [by apply next_exhausted|].
    intros n h'. by apply drain_exhausted.
Qed.

(** The amended C2 at the iterator [abc.values()] after three steps. *)
Lemma exhaustion_sticky_witness :
  let it := snd (drain 3 (store abc) (values abc)) in
  Iterator.next (store abc) it = (iteratorResult undefined, it) ∧
  ∀ n h', drain n h' it = (replicate n (iteratorResult undefined), it).
Proof.
  apply (exhaustion_sticky abc).
  - apply reachable_construct.
  - apply iterator_of_drain, iterator_of_values.
  - left. by vm_compute.
  - by vm_compute.
Defined.

(** C3.  A step is marked done exactly when the value it produces is
    [undefined].  So when [undefined] is an element of the set, the
    iterator of [values()], which is also the default iterator, reports
    the end of the sequence on reaching that element: spread stops there,
    with the elements before it, even if further elements remain in the
    chain, and when an element [y] follows, the next call of [next()] on
    the same iterator yields [y], not done. *)
Theorem undefined_element_ends_iteration this xs rest :
  reachable this → elements this = xs ++ PUndefined :: rest →
  (∀ h it,
     IteratorResult.done (fst (Iterator.next h it)) = true ↔
     IteratorResult.value (fst (Iterator.next h it)) = undefined) ∧
  Symbol_iterator this = values this ∧
  fst (drain (length xs + 1) (store this) (values this)) =
    ((λ x, IteratorResult.mk (JPrim x) false) <$> xs) ++
    [IteratorResult.mk undefined true] ∧
  (∀ fuel, length xs < fuel →
     collect fuel (store this) (values this) = Some (JPrim <$> xs)) ∧
  (∀ y ys, rest = y :: ys →
     fst (drain (length xs + 2) (store this) (values this)) =
       ((λ x, IteratorResult.mk (JPrim x) false) <$> xs) ++
       [IteratorResult.mk undefined true; IteratorResult.mk (JPrim y) false]).
Proof.
  intros Hreach Hel.
  destruct (reachable_Rep _ Hreach) as [ls HRep].
  pose proof (Rep_elements_NoDup _ _ HRep) as Hnd. rewrite Hel in Hnd.
  apply NoDup_app in Hnd as (_ & Hxs & [Hrest _]%NoDup_cons).
  assert (PUndefined ∉ xs) as Hxs'.
  { intros Hin. apply (Hxs _ Hin). by left. }
  assert ((λ x, iteratorResult (JPrim x)) <$> xs =
          (λ x, IteratorResult.mk (JPrim x) false) <$> xs) as Hres.
  { apply list_fmap_ext. intros i x Hx. unfold iteratorResult.
    rewrite not_undefined_JPrim; [done|]. intros ->.
    apply Hxs'. by apply list_elem_of_lookup_2 in Hx. }
  split_and!.
  - intros h it. unfold Iterator.next.
    destruct (currentNode it); simpl; [|done]. apply is_undefined_true.
  - done.
  - destruct (Rep_elements_split this ls (xs ++ [PUndefined]) rest HRep)
      as (pre & post & -> & Hpre & _).
    { by rewrite Hel, <- (assoc_L (++)). }
    assert (length xs + 1 = length pre) as ->.
    { rewrite <- (length_fmap (λ l, value (deref (store this) l)) pre), <- Hpre.
      by rewrite length_app. }
    rewrite (values_drain this pre post HRep). simpl.
    by rewrite <- Hpre, fmap_app, Hres.
  - intros fuel Hfuel.
    destruct (Rep_elements_split this ls xs (PUndefined :: rest) HRep Hel)
      as (pre & post & -> & Hpre & Hpost).
    pose proof (values_drain this pre post HRep) as Hd. rewrite <- Hpre in Hd.
    assert (length xs = length pre) as Hlen by (by rewrite Hpre, length_fmap).
    rewrite (collect_drain (length pre)); rewrite ?Hd; simpl.
    + by rewrite results_values.
    + by apply results_not_done.
    + destruct post as [|u post]; [done|]. simpl in *.
      unfold Iterator.next. simpl. injection Hpost as Hu _. by rewrite <- Hu.
    + lia.
  - intros y ys ->.
    assert (y ≠ PUndefined) as Hy.
    { intros ->. apply Hrest. by left. }
    destruct (Rep_elements_split this ls (xs ++ [PUndefined; y]) ys HRep)
      as (pre & post & -> & Hpre & _).
    { by rewrite Hel, <- (assoc_L (++)). }
    assert (length xs + 2 = length pre) as ->.
    { rewrite <- (length_fmap (λ l, value (deref (store this) l)) pre), <- Hpre.
      by rewrite length_app. }
    rewrite (values_drain this pre post HRep). simpl.
    rewrite <- Hpre, fmap_app, Hres. simpl. unfold iteratorResult. simpl.
    by destruct y.
Qed.

(** C3 at the set 1, [undefined], 2. *)
Lemma undefined_element_ends_iteration_witness :
  (∀ h it,
     IteratorResult.done (fst (Iterator.next h it)) = true ↔
     IteratorResult.value (fst (Iterator.next h it)) = undefined) ∧
  Symbol_iterator undefined_between = values undefined_between ∧
  fst (drain (length [PNum 1] + 1) (store undefined_between) (values undefined_between)) =
    ((λ x, IteratorResult.mk (JPrim x) false) <$> [PNum 1]) ++
    [IteratorResult.mk undefined true] ∧
  (∀ fuel, length [PNum 1] < fuel →
     collect fuel (store undefined_between) (values undefined_between) =
     Some (JPrim <$> [PNum 1])) ∧
  (∀ y ys, [PNum 2] = y :: ys →
     fst (drain (length [PNum 1] + 2) (store undefined_between)
            (values undefined_between)) =
       ((λ x, IteratorResult.mk (JPrim x) false) <$> [PNum 1]) ++
       [IteratorResult.mk undefined true; IteratorResult.mk (JPrim y) false]).
Proof.
  apply (undefined_element_ends_iteration undefined_between [PNum 1] [PNum 2]).
  - apply reachable_construct.
  - by vm_compute.
Defined.

(** C4, as stated, fails: the iterator of [values()] over a, b, c is
    exhausted by four calls of [next()]; after [reverseIterator()] its
    next step yields c and is not done. *)
Lemma reverse_after_exhaustion_yields_last :
  fst (drain 4 (store abc) (values abc)) =
    [IteratorResult.mk (JPrim (PStr "a")) false;
     IteratorResult.mk (JPrim (PStr "b")) false;
     IteratorResult.mk (JPrim (PStr "c")) false;
     IteratorResult.mk undefined true] ∧
  currentNode (snd (drain 4 (store abc) (values abc))) = None ∧
  fst (Iterator.next (store abc)
         (Iterator.reverseIterator (snd (drain 4 (store abc) (values abc))))) =
    IteratorResult.mk (JPrim (PStr "c")) false.
Proof. split_and!; by vm_compute. Qed.

(** C4, amended.  For every iterator of a set, exhausted or not,
    [reverseIterator()] puts it back at its anchor, walking backward: the
    iterator is exhausted afterwards only if the set is empty; one that
    was handed out without a start node then steps over all the nodes
    from the last to the first, and one handed out with start node [l]
    steps from [l] back to the first. *)
Theorem reverseIterator_restarts this it :
  reachable this → iterator_of this it →
  forwards (Iterator.reverseIterator it) = false ∧
  (currentNode (Iterator.reverseIterator it) = None ↔ size this = 0) ∧
  (startNode it = None →
     fst (drain (size this) (store this) (Iterator.reverseIterator it)) =
       result_at (store this) (getIteratorValue it) <$> reverse (nodes this) ∧
     currentNode (snd (drain (size this) (store this) (Iterator.reverseIterator it)))
       = None) ∧
  (∀ pre l post, startNode it = Some l → nodes this = pre ++ l :: post →
     fst (drain (S (length pre)) (store this) (Iterator.reverseIterator it)) =
       result_at (store this) (getIteratorValue it) <$> (l :: reverse pre) ∧
     currentNode (snd (drain (S (length pre)) (store this) (Iterator.reverseIterator it)))
       = None).
Proof.
  intros Hreach Hit.
  destruct (reachable_Rep _ Hreach) as [ls HRep].
  destruct (iterator_of_inv _ _ _ HRep Hit) as (_ & Hstart & Hlast & _).
  rewrite (Rep_nodes _ ls), (Rep_size _ ls) by done.
  split_and!.
  - done.
  - simpl. rewrite or_else_eq. destruct (startNode it) as [l|] eqn:Hs; simpl.
    + split; [done|]. intros ->%nil_length_inv.
      specialize (Hstart l eq_refl). by apply elem_of_nil in Hstart.
    + rewrite Hlast, last_None. split; [by intros ->|apply nil_length_inv].
  - intros Hs.
    rewrite (reverse_drain this it [] ls []); [done|..].
    + by rewrite (right_id_L [] (++)).
    + by rewrite Hs.
  - intros pre l post Hs ->.
    replace (S (length pre)) with (length (pre ++ [l]))
      by (rewrite length_app; simpl; lia).
    rewrite (reverse_drain this it [] (pre ++ [l]) post).
    + by rewrite reverse_snoc.
    + by rewrite <- (assoc_L (++)).
    + rewrite Hs. simpl. by rewrite last_snoc.
Qed.

(** The amended C4 at the exhausted iterator of the set a, b, c. *)
Lemma reverseIterator_restarts_witness :
  forwards (Iterator.reverseIterator exhausted_abc) = false ∧
  (currentNode (Iterator.reverseIterator exhausted_abc) = None ↔ size abc = 0) ∧
  (startNode exhausted_abc = None →
     fst (drain (size abc) (store abc) (Iterator.reverseIterator exhausted_abc)) =
       result_at (store abc) (getIteratorValue exhausted_abc) <$> reverse (nodes abc) ∧
     currentNode (snd (drain (size abc) (store abc)
                        (Iterator.reverseIterator exhausted_abc))) = None) ∧
  (∀ pre l post, startNode exhausted_abc = Some l → nodes abc = pre ++ l :: post →
     fst (drain (S (length pre)) (store abc) (Iterator.reverseIterator exhausted_abc)) =
       result_at (store abc) (getIteratorValue exhausted_abc) <$> (l :: reverse pre) ∧
     currentNode (snd (drain (S (length pre)) (store abc)
                        (Iterator.reverseIterator exhausted_abc))) = None).
Proof.
  apply (reverseIterator_restarts abc exhausted_abc).
  - apply reachable_construct.
  - apply iterator_of_drain, iterator_of_values.
Defined.

(** C5.  For every iterator anchored at an existing element [X]
    ([iteratorFor(X)]), however many steps it has taken, the steps after
    [reverseIterator()] yield [X] and then the elements before [X], from
    the nearest back to the first of the set, and leave the iterator past
    the start of the chain. *)
Theorem reverse_continues_from_anchor this pre X post n :
  reachable this → elements this = pre ++ X :: post →
  fst (drain (S (length pre)) (store this)
         (Iterator.reverseIterator (snd (drain n (store this) (iteratorFor this X))))) =
    (λ x, iteratorResult (JPrim x)) <$> (X :: reverse pre) ∧
  currentNode (snd (drain (S (length pre)) (store this)
         (Iterator.reverseIterator (snd (drain n (store this) (iteratorFor this X))))))
    = None.
Proof.
  intros Hreach Hel.
  destruct (reachable_Rep _ Hreach) as [ls HRep].
  rewrite reverseIterator_drain.
  destruct (Rep_elements_split this ls pre (X :: post) HRep Hel)
    as (lpre & lpost & -> & -> & Hpost).
  destruct lpost as [|lX lpost]; [done|]. simpl in Hpost.
  injection Hpost as HX _.
  assert (JsMap.get (_setMap this) X = Some lX) as Hget.
  { apply (rep_index _ _ HRep). split; [|done].
    apply elem_of_app. right. by left. }
  rewrite length_fmap.
  replace (S (length lpre)) with (length (lpre ++ [lX]))
    by (rewrite length_app; simpl; lia).
  rewrite (reverse_drain this (iteratorFor this X) [] (lpre ++ [lX]) lpost).
  - split; [|done]. simpl. rewrite reverse_snoc, HX. simpl. f_equal.
    by rewrite <- fmap_reverse, <- list_fmap_compose.
  - by rewrite <- (assoc_L (++)).
  - unfold iteratorFor. rewrite Hget. simpl. by rewrite last_snoc.
Qed.

(** C5 at the set a, b, c, d, e, anchored at c and advanced twice before
    the reversal. *)
Lemma reverse_continues_from_anchor_witness :
  fst (drain (S (length [PStr "a"; PStr "b"])) (store abcde)
         (Iterator.reverseIterator
            (snd (drain 2 (store abcde) (iteratorFor abcde (PStr "c")))))) =
    (λ x, iteratorResult (JPrim x)) <$> (PStr "c" :: reverse [PStr "a"; PStr "b"]) ∧
  currentNode (snd (drain (S (length [PStr "a"; PStr "b"])) (store abcde)
         (Iterator.reverseIterator
            (snd (drain 2 (store abcde) (iteratorFor abcde (PStr "c")))))))
    = None.
Proof.
  apply (reverse_continues_from_anchor abcde [PStr "a"; PStr "b"] (PStr "c")
           [PStr "d"; PStr "e"] 2).
  - apply reachable_construct.
  - by vm_compute.
Defined.

(** C8.  For every set and every value already present in it, [add] and
    [addFirst] with that value return the set as it was: every field and
    every node is unchanged, hence so are the position of the element,
    the size and the iteration order. *)
Theorem add_present_is_noop this v :
  has this v = true →
  add v this = this ∧ addFirst v this = this ∧
  size (add v this) = size this ∧ size (addFirst v this) = size this ∧
  elements (add v this) = elements this ∧
  elements (addFirst v this) = elements this.
Proof.
  intros Hhas.
  assert (add v this = this) as -> by (by apply Rep_add_present).
  assert (addFirst v this = this) as -> by (unfold addFirst; by rewrite Hhas).
  done.
Qed.

(** C8 at the set a, b, c and the present value a. *)
Lemma add_present_is_noop_witness :
  add (PStr "a") abc = abc ∧ addFirst (PStr "a") abc = abc ∧
  size (add (PStr "a") abc) = size abc ∧ size (addFirst (PStr "a") abc) = size abc ∧
  elements (add (PStr "a") abc) = elements abc ∧
  elements (addFirst (PStr "a") abc) = elements abc.
Proof. apply (add_present_is_noop abc (PStr "a")). by vm_compute. Defined.

Lemma filter_other (v : Prim) (xs : list Prim) :
  v ∉ xs → filter (λ x, x ≠ v) xs = xs.
Proof.
  induction xs as [|x xs IH]; intros Hv; [done|].
  apply not_elem_of_cons in Hv as [Hx Hv].
  rewrite filter_cons_True by done. by rewrite IH.
Qed.

Lemma filter_remove (v : Prim) (xs ys : list Prim) :
  NoDup (xs ++ v :: ys) → filter (λ x, x ≠ v) (xs ++ v :: ys) = xs ++ ys.
Proof.
  intros (_ & Hxs & [Hys _]%NoDup_cons)%NoDup_app.
  rewrite filter_app, filter_cons_False by (by intros ?).
  rewrite !filter_other; [done..|].
  intros Hin. apply (Hxs _ Hin). by left.
Qed.

(** C9.  For every set, [delete] returns [true] iff the value is present.
    When it is absent the set is left as it was.  When it is present the
    element is removed, the size decreases by one and the remaining
    elements keep their order; if it was the only element, both
    [_firstNode] and [_lastNode] become [null]. *)
Theorem delete_spec this v :
  reachable this →
  fst (delete v this) = has this v ∧
  (has this v = false → snd (delete v this) = this) ∧
  (has this v = true →
     has (snd (delete v this)) v = false ∧
     S (size (snd (delete v this))) = size this ∧
     elements (snd (delete v this)) = filter (λ x, x ≠ v) (elements this) ∧
     (size this = 1 →
        _firstNode (snd (delete v this)) = None ∧
        _lastNode (snd (delete v this)) = None)).
Proof.
  intros Hreach. destruct (reachable_Rep _ Hreach) as [ls HRep].
  destruct (has this v) eqn:Hhas.
  - apply has_true in Hhas as [l Hm].
    assert (l ∈ ls) as (pre & post & ->)%list_elem_of_split.
    { by apply (rep_index _ _ HRep) in Hm as [? _]. }
    destruct (Rep_delete this pre l post v HRep Hm) as (Hret & HRep' & Hval).
    assert (value (deref (store this) l) = v) as Hl.
    { by apply (rep_index _ _ HRep) in Hm as [_ ?]. }
    pose proof (Rep_elements_NoDup _ _ HRep) as Hnd.
    rewrite (Rep_elements _ _ HRep), fmap_app, fmap_cons, Hl in Hnd.
    assert (elements (snd (delete v this)) =
            filter (λ x, x ≠ v) (elements this)) as Hel.
    { rewrite (Rep_elements _ _ HRep), (Rep_elements _ _ HRep').
      rewrite (fmap_app _ pre (l :: post)), fmap_cons, Hl, filter_remove by done.
      rewrite fmap_app. f_equal; apply list_fmap_ext; intros; apply Hval. }
    split; [done|]. split; [done|]. intros _. split_and!.
    + apply not_true_iff_false. rewrite (Rep_has _ _ _ HRep'), Hel.
      rewrite list_elem_of_filter. by intros [? _].
    + rewrite (Rep_size _ _ HRep), (Rep_size _ _ HRep'), !length_app. simpl. lia.
    + done.
    + rewrite (Rep_size _ _ HRep), length_app. simpl. intros Hone.
      assert (pre = []) as -> by (apply nil_length_inv; lia).
      assert (post = []) as -> by (apply nil_length_inv; lia).
      by rewrite (rep_first _ _ HRep'), (rep_last _ _ HRep').
  - apply has_false in Hhas.
    unfold delete, JsMap.get. rewrite Hhas. done.
Qed.

(** C9 at the set 1, 2, 3 and the value 2. *)
Lemma delete_spec_witness :
  fst (delete (PNum 2) one_two_three) = has one_two_three (PNum 2) ∧
  (has one_two_three (PNum 2) = false →
     snd (delete (PNum 2) one_two_three) = one_two_three) ∧
  (has one_two_three (PNum 2) = true →
     has (snd (delete (PNum 2) one_two_three)) (PNum 2) = false ∧
     S (size (snd (delete (PNum 2) one_two_three))) = size one_two_three ∧
     elements (snd (delete (PNum 2) one_two_three)) =
       filter (λ x, x ≠ PNum 2) (elements one_two_three) ∧
     (size one_two_three = 1 →
        _firstNode (snd (delete (PNum 2) one_two_three)) = None ∧
        _lastNode (snd (delete (PNum 2) one_two_three)) = None)).
Proof. apply (delete_spec one_two_three (PNum 2)), reachable_construct. Defined.

(** C10.  The constructor yields, and [add], [addFirst], [delete] and
    [clear] preserve, the invariants of the set: each value has at most
    one node, the chain is acyclic and doubly consistent, the first node
    has no predecessor and the last no successor, both are [null] exactly
    when the set is empty, and the index size, the chain length and the
    reported size agree. *)
Theorem invariants_hold this : reachable this → Invariants this.
Proof.
  intros [ls HRep]%reachable_Rep.
  pose proof HRep as [Hnd Hal Hlk Hfst Hlst Hidx Hsz].
  assert (size this = length ls) as Hsize by done.
  split; rewrite ?(Rep_nodes _ ls) by done.
  - done.
  - by apply (Rep_elements_NoDup _ ls).
  - done.
  - intros fuel Hfuel. rewrite Hfst. apply (walk_dlseg _ None); [done|lia].
  - intros n m (pre & post & ->)%list_elem_of_split Hnext.
    destruct (dlseg_focus _ _ _ _ _ _ Hlk) as [_ Hn].
    rewrite or_else_None, Hnext in Hn. symmetry in Hn.
    apply head_Some in Hn as [post' ->]. split.
    + apply elem_of_app. right. right. by left.
    + replace (pre ++ n :: m :: post') with ((pre ++ [n]) ++ m :: post') in Hlk
        by (by rewrite <- (assoc_L (++))).
      destruct (dlseg_focus _ _ _ _ _ _ Hlk) as [Hp _].
      by rewrite last_snoc in Hp.
  - intros n m (pre & post & ->)%list_elem_of_split Hprev.
    destruct (dlseg_focus _ _ _ _ _ _ Hlk) as [Hp _].
    rewrite or_else_None, Hprev in Hp. symmetry in Hp.
    apply last_Some in Hp as [pre' ->]. split.
    + apply elem_of_app. left. apply elem_of_app. right. by left.
    + rewrite <- (assoc_L (++)) in Hlk.
      by destruct (dlseg_focus _ _ _ _ _ _ Hlk) as [_ Hn].
  - done.
  - done.
  - intros f. rewrite Hfst. intros [ls' ->]%head_Some.
    by destruct Hlk as (? & _).
  - intros l. rewrite Hlst. intros [ls' ->]%last_Some.
    by destruct (dlseg_focus _ _ _ _ _ _ Hlk) as [_ ?].
  - rewrite Hlst, Hsize. apply (walk_back_dlseg _ _ None); [done|lia].
  - rewrite Hfst, Hsize, head_None. split; [by intros ->|apply nil_length_inv].
  - rewrite Hlst, Hsize, last_None. split; [by intros ->|apply nil_length_inv].
  - done.
Qed.

(** C10 at the set 1, 2, 3 after [addFirst(0)] and [delete(2)]. *)
Lemma invariants_hold_witness :
  Invariants (apply_op (OpDelete (PNum 2)) (apply_op (OpAddFirst (PNum 0)) one_two_three)).
Proof.
  apply invariants_hold. do 2 apply reachable_op. apply reachable_construct.
Defined.

(** * Further properties of the code *)

(** ** What [add] and [addFirst] store *)

Lemma add_value this v l :
  has this v = false →
  value (deref (store (add v this)) l) =
  if decide (l = nextLoc this) then v else value (deref (store this) l).
Proof.
  intros Hhas. unfold add. rewrite Hhas.
  destruct this as [h nl m [f|] [la|]]; simpl;
    rewrite ?deref_insert; repeat case_decide; subst; simpl;
    rewrite ?deref_insert; repeat case_decide; subst; simpl; congruence.
Qed.

Lemma addFirst_value this v l :
  has this v = false →
  value (deref (store (addFirst v this)) l) =
  if decide (l = nextLoc this) then v else value (deref (store this) l).
Proof.
  intros Hhas. unfold addFirst. rewrite Hhas.
  destruct this as [h nl m [f|] [la|]]; simpl;
    rewrite ?deref_insert; repeat case_decide; subst; simpl;
    rewrite ?deref_insert; repeat case_decide; subst; simpl; congruence.
Qed.

Lemma Rep_fresh this ls l : Rep this ls → l ∈ ls → l ≠ nextLoc this.
Proof. intros HRep Hl%(rep_alloc _ _ HRep). lia. Qed.

Lemma add_elements this ls v :
  Rep this ls → has this v = false → elements (add v this) = elements this ++ [v].
Proof.
  intros HRep Hhas.
  rewrite (Rep_elements _ _ (Rep_add _ _ _ HRep Hhas)), (Rep_elements _ _ HRep).
  rewrite fmap_app. simpl. rewrite add_value, decide_True by done.
  f_equal. apply list_fmap_ext. intros i l Hl%list_elem_of_lookup_2.
  rewrite add_value, decide_False; [done| |done]. by apply (Rep_fresh this ls).
Qed.

Lemma addFirst_elements this ls v :
  Rep this ls → has this v = false → elements (addFirst v this) = v :: elements this.
Proof.
  intros HRep Hhas.
  rewrite (Rep_elements _ _ (Rep_addFirst _ _ _ HRep Hhas)), (Rep_elements _ _ HRep).
  simpl. rewrite addFirst_value, decide_True by done.
  f_equal. apply list_fmap_ext. intros i l Hl%list_elem_of_lookup_2.
  rewrite addFirst_value, decide_False; [done| |done]. by apply (Rep_fresh this ls).
Qed.

(** X1.  Adding a value that is not yet in the set puts it at the end of
    the iteration order, leaves the other elements where they were, and
    increases the size by one. *)
Theorem add_absent_appends this v :
  reachable this → has this v = false →
  elements (add v this) = elements this ++ [v] ∧
  size (add v this) = S (size this) ∧
  has (add v this) v = true.
Proof.
  intros [ls HRep]%reachable_Rep Hhas.
  pose proof (Rep_add _ _ _ HRep Hhas) as HRep'.
  split_and!.
  - by apply (add_elements this ls).
  - rewrite (Rep_size _ _ HRep'), (Rep_size _ _ HRep), length_app. simpl. lia.
  - rewrite (Rep_has _ _ _ HRep'), (add_elements this ls) by done.
    apply elem_of_app. right. by left.
Qed.

(** X1 at the set a, b, c and the new value d. *)
Lemma add_absent_appends_witness :
  elements (add (PStr "d") abc) = elements abc ++ [PStr "d"] ∧
  size (add (PStr "d") abc) = S (size abc) ∧
  has (add (PStr "d") abc) (PStr "d") = true.
Proof.
  apply (add_absent_appends abc (PStr "d")).
  - apply reachable_construct.
  - by vm_compute.
Defined.

(** X2.  [addFirst] of a value that is not yet in the set puts it at the
    start of the iteration order, leaves the other elements where they
    were, and increases the size by one. *)
Theorem addFirst_absent_prepends this v :
  reachable this → has this v = false →
  elements (addFirst v this) = v :: elements this ∧
  size (addFirst v this) = S (size this) ∧
  has (addFirst v this) v = true.
Proof.
  intros [ls HRep]%reachable_Rep Hhas.
  pose proof (Rep_addFirst _ _ _ HRep Hhas) as HRep'.
  split_and!.
  - by apply (addFirst_elements this ls).
  - rewrite (Rep_size _ _ HRep'), (Rep_size _ _ HRep). done.
  - rewrite (Rep_has _ _ _ HRep'), (addFirst_elements this ls) by done. by left.
Qed.

(** X2 at the set a, b, c and the new value d. *)
Lemma addFirst_absent_prepends_witness :
  elements (addFirst (PStr "d") abc) = PStr "d" :: elements abc ∧
  size (addFirst (PStr "d") abc) = S (size abc) ∧
  has (addFirst (PStr "d") abc) (PStr "d") = true.
Proof.
  apply (addFirst_absent_prepends abc (PStr "d")).
  - apply reachable_construct.
  - by vm_compute.
Defined.

(** ** The index after each method *)

Lemma add_setMap this v :
  has this v = false → _setMap (add v this) = <[v:=nextLoc this]> (_setMap this).
Proof.
  intros Hhas. unfold add. rewrite Hhas.
  by destruct this as [h nl m [f|] [la|]].
Qed.

Lemma addFirst_setMap this v :
  has this v = false → _setMap (addFirst v this) = <[v:=nextLoc this]> (_setMap this).
Proof.
  intros Hhas. unfold addFirst. rewrite Hhas.
  by destruct this as [h nl m [f|] [la|]].
Qed.

Lemma delete_setMap this v :
  _setMap (snd (delete v this)) = base.delete v (_setMap this).
Proof.
  unfold delete, JsMap.get.
  destruct (_setMap this !! v) as [node|] eqn:Hm; simpl.
  - by destruct (prevNode (deref (store this) node)),
      (nextNode (deref (store this) node)).
  - by rewrite delete_id.
Qed.

(** X3.  Membership after each mutating method, for every state of the
    set: [add] and [addFirst] make exactly their argument present in
    addition, [delete] makes exactly its argument absent, and after
    [clear] nothing is present. *)
Theorem has_after_update this v w :
  (has (add v this) w = true ↔ w = v ∨ has this w = true) ∧
  (has (addFirst v this) w = true ↔ w = v ∨ has this w = true) ∧
  (has (snd (delete v this)) w = true ↔ w ≠ v ∧ has this w = true) ∧
  has (clear this) w = false.
Proof.
  split_and!.
  - destruct (has this v) eqn:Hhas.
    + rewrite Rep_add_present by done. split; [auto|]. by intros [->|?].
    + rewrite !has_true, add_setMap, lookup_insert_is_Some' by done.
      split; (intros [?|?]; [by left|by right]).
  - destruct (has this v) eqn:Hhas.
    + unfold addFirst. rewrite Hhas. split; [auto|]. by intros [->|?].
    + rewrite !has_true, addFirst_setMap, lookup_insert_is_Some' by done.
      split; (intros [?|?]; [by left|by right]).
  - rewrite !has_true, delete_setMap, lookup_delete_is_Some.
    split; (intros [? ?]; by split).
  - apply has_false. apply lookup_empty.
Qed.

(** ** Building a set from a sequence of values *)

Lemma elem_of_first_occurrences (k : list Prim) x : x ∈ first_occurrences k ↔ x ∈ k.
Proof.
  unfold first_occurrences.
  by rewrite elem_of_reverse, elem_of_remove_dups, elem_of_reverse.
Qed.

Lemma first_occurrences_snoc (k : list Prim) x :
  first_occurrences (k ++ [x]) =
  if decide (x ∈ k) then first_occurrences k else first_occurrences k ++ [x].
Proof.
  unfold first_occurrences. rewrite reverse_snoc. simpl.
  destruct (decide_rel elem_of x (reverse k)) as [Hin|Hin];
    rewrite elem_of_reverse in Hin.
  - by rewrite decide_True.
  - by rewrite decide_False, reverse_cons.
Qed.

Lemma first_occurrences_NoDup (k : list Prim) : NoDup k → first_occurrences k = k.
Proof.
  induction k as [|x k IH] using rev_ind; intros Hnd; [done|].
  apply NoDup_app in Hnd as (Hk & Hx & _).
  rewrite first_occurrences_snoc, decide_False, IH; [done..|].
  intros Hin. apply (Hx x Hin). by left.
Qed.

Lemma NoDup_first_occurrences (k : list Prim) : NoDup (first_occurrences k).
Proof.
  unfold first_occurrences. rewrite reverse_Permutation. apply NoDup_remove_dups.
Qed.

Lemma reachable_adds this l :
  reachable this → reachable (foldl (λ s x, add x s) this l).
Proof.
  revert this. induction l as [|x l IH]; intros this Hreach; [done|].
  simpl. apply IH. apply (reachable_op (OpAdd x)), Hreach.
Qed.

Lemma adds_elements this l :
  reachable this →
  elements (foldl (λ s x, add x s) this l) = first_occurrences (elements this ++ l).
Proof.
  intros Hreach. induction l as [|x l IH] using rev_ind.
  - destruct (reachable_Rep _ Hreach) as [ls HRep].
    rewrite (right_id_L [] (++)), first_occurrences_NoDup; [done|].
    by apply (Rep_elements_NoDup _ ls).
  - rewrite foldl_snoc, (assoc_L (++)), first_occurrences_snoc, <- IH.
    set (s := foldl (λ s x, add x s) this l) in *.
    destruct (reachable_Rep s (reachable_adds _ _ Hreach)) as [ls HRep].
    assert (x ∈ elements this ++ l ↔ has s x = true) as Hin.
    { by rewrite (Rep_has _ _ _ HRep), IH, elem_of_first_occurrences. }
    destruct (has s x) eqn:Hhas.
    + rewrite decide_True by (by apply Hin). by rewrite Rep_add_present.
    + rewrite decide_False by (rewrite Hin; congruence).
      by apply (add_elements s ls).
Qed.

Lemma reachable_size_elements this : reachable this → size this = length (elements this).
Proof.
  intros [ls HRep]%reachable_Rep.
  by rewrite (Rep_size _ _ HRep), (Rep_elements _ _ HRep), length_fmap.
Qed.

(** X4.  The constructor keeps each value of the iterable once, at the
    place of its first occurrence: the elements are the first occurrences
    in source order, the size is the number of distinct values, exactly
    the values of the iterable are present, and an iterable without
    repetitions is kept as it is.  Without an argument the set is
    empty. *)
Theorem construct_first_occurrences l :
  elements (construct (Some l)) = first_occurrences l ∧
  size (construct (Some l)) = length (remove_dups l) ∧
  (∀ v, has (construct (Some l)) v = true ↔ v ∈ l) ∧
  (NoDup l → elements (construct (Some l)) = l) ∧
  size (construct None) = 0 ∧ elements (construct None) = [].
Proof.
  assert (elements (construct (Some l)) = first_occurrences l) as Hel.
  { apply (adds_elements empty_set l (reachable_construct None)). }
  pose proof (reachable_construct (Some l)) as Hreach.
  split_and!; [done| | | |done..].
  - rewrite reachable_size_elements, Hel by done.
    apply Permutation_length, NoDup_Permutation.
    + apply NoDup_first_occurrences.
    + apply NoDup_remove_dups.
    + intros x. by rewrite elem_of_first_occurrences, elem_of_remove_dups.
  - intros v. destruct (reachable_Rep _ Hreach) as [ls HRep].
    by rewrite (Rep_has _ _ _ HRep), Hel, elem_of_first_occurrences.
  - intros Hnd. by rewrite Hel, first_occurrences_NoDup.
Qed.

(** X5.  A set is as good as new after [clear()]: it is empty, and values
    added to it afterwards are kept in the order of their first
    occurrences, whatever the set held before. *)
Theorem clear_then_add this l :
  reachable this →
  size (clear this) = 0 ∧ elements (clear this) = [] ∧
  elements (foldl (λ s x, add x s) (clear this) l) = first_occurrences l.
Proof.
  intros Hreach.
  assert (elements (clear this) = []) as Hel.
  { by rewrite (Rep_elements _ _ (Rep_clear this)). }
  split_and!; [done..|].
  rewrite (adds_elements (clear this) l (reachable_op OpClear _ Hreach)).
  by rewrite Hel.
Qed.

(** X5 at the set a, b, c, cleared and refilled with c, a, c. *)
Lemma clear_then_add_witness :
  size (clear abc) = 0 ∧ elements (clear abc) = [] ∧
  elements (foldl (λ s x, add x s) (clear abc) [PStr "c"; PStr "a"; PStr "c"]) =
    first_occurrences [PStr "c"; PStr "a"; PStr "c"].
Proof. apply (clear_then_add abc), reachable_construct. Defined.

(** ** Full and anchored traversals *)

(** Spread over an iterator whose steps run over the nodes [mid] and then
    off the chain, none of the steps producing [undefined]. *)
Lemma collect_nodes n h it fuel g mid it' :
  drain n h it = (result_at h g <$> mid, it') →
  (∀ l, l ∈ mid → is_undefined (g (deref h l)) = false) →
  currentNode it' = None → n < fuel →
  collect fuel h it = Some ((λ l, g (deref h l)) <$> mid).
Proof.
  intros Hd Hmid Hend Hfuel.
  rewrite (collect_drain n); rewrite ?Hd; simpl.
  - by rewrite <- list_fmap_compose.
  - apply Forall_fmap, Forall_forall. intros l Hl. by apply Hmid.
  - by rewrite next_exhausted.
  - done.
Qed.

(** Forward over [mid], the rest of the chain. *)
Lemma drain_forward_end h g sN lN p pre mid :
  dlseg h p (pre ++ mid) None →
  drain (length mid) h (mkIter g sN lN (head mid) true) =
  (result_at h g <$> mid, mkIter g sN lN None true).
Proof.
  intros Hlk.
  pose proof (drain_forward h g sN lN p pre mid []) as Hd.
  rewrite (right_id_L [] (++)) in Hd. by apply Hd.
Qed.

(** X6.  [entries()] reaches every element of every set, [undefined]
    included: collecting it yields the pair [[v, v]] of each element in
    insertion order, and collecting [entries().reverseIterator()] yields
    the same pairs in the opposite order. *)
Theorem entries_spread this fuel :
  reachable this → size this < fuel →
  collect fuel (store this) (entries this) =
    Some ((λ v, JTuple v v) <$> elements this) ∧
  collect fuel (store this) (Iterator.reverseIterator (entries this)) =
    Some (reverse ((λ v, JTuple v v) <$> elements this)).
Proof.
  intros [ls HRep]%reachable_Rep Hfuel.
  rewrite (Rep_size _ _ HRep) in Hfuel.
  rewrite (Rep_elements _ _ HRep), <- list_fmap_compose.
  pose proof (rep_links _ _ HRep) as Hlk.
  split.
  - apply (collect_nodes (length ls) _ _ _ (λ node, JTuple (value node) (value node))
             ls (mkIter (λ node, JTuple (value node) (value node)) None
                   (_lastNode this) None true)); [|done..].
    unfold entries, _iterableIterator. rewrite (rep_first _ _ HRep).
    by apply (drain_forward_end _ _ _ _ None []).
  - rewrite <- fmap_reverse.
    apply (collect_nodes (length (reverse ls)) _ _ _
             (λ node, JTuple (value node) (value node)) (reverse ls)
             (mkIter (λ node, JTuple (value node) (value node)) None
                (_lastNode this) None false)); [|done..|by rewrite length_reverse].
    rewrite length_reverse.
    apply (reverse_drain this (entries this) [] ls []).
    + by rewrite (right_id_L [] (++)).
    + apply (rep_last _ _ HRep).
Qed.

(** X6 at the set 1, [undefined], 2. *)
Lemma entries_spread_witness :
  collect 4 (store undefined_between) (entries undefined_between) =
    Some ((λ v, JTuple v v) <$> elements undefined_between) ∧
  collect 4 (store undefined_between)
    (Iterator.reverseIterator (entries undefined_between)) =
    Some (reverse ((λ v, JTuple v v) <$> elements undefined_between)).
Proof.
  apply (entries_spread undefined_between 4).
  - apply reachable_construct.
  - vm_compute. lia.
Defined.

(** X7.  For every element [X] of a set, the steps of [iteratorFor(X)]
    yield [X] and then the elements after it in insertion order, and
    leave the iterator past the end of the chain; the elements before
    [X] are not visited. *)
Theorem iteratorFor_present this pre X post :
  reachable this → elements this = pre ++ X :: post →
  fst (drain (S (length post)) (store this) (iteratorFor this X)) =
    (λ x, iteratorResult (JPrim x)) <$> (X :: post) ∧
  currentNode (snd (drain (S (length post)) (store this) (iteratorFor this X))) = None.
Proof.
  intros [ls HRep]%reachable_Rep Hel.
  destruct (Rep_elements_split this ls pre (X :: post) HRep Hel)
    as (lpre & lpost & -> & -> & Hpost).
  destruct lpost as [|lX lpost]; [done|].
  assert (JsMap.get (_setMap this) X = Some lX) as Hget.
  { apply (rep_index _ _ HRep). simpl in Hpost. injection Hpost as HX _.
    split; [|done]. apply elem_of_app. right. by left. }
  assert (S (length post) = length (lX :: lpost)) as ->.
  { change (S (length post)) with (length (X :: post)).
    by rewrite Hpost, length_fmap. }
  unfold iteratorFor, _iterableIterator. rewrite Hget.
  pose proof (drain_forward_end (store this) (λ node, JPrim (value node))
    (Some lX) (_lastNode this) None lpre (lX :: lpost) (rep_links _ _ HRep)) as Hd.
  cbn [head] in Hd. rewrite Hd.
  split; [|done]. cbn [fst]. by rewrite Hpost, <- list_fmap_compose.
Qed.

(** X7 at the set a, b, c, d, e and the element c. *)
Lemma iteratorFor_present_witness :
  fst (drain (S (length [PStr "d"; PStr "e"])) (store abcde)
         (iteratorFor abcde (PStr "c"))) =
    (λ x, iteratorResult (JPrim x)) <$> (PStr "c" :: [PStr "d"; PStr "e"]) ∧
  currentNode (snd (drain (S (length [PStr "d"; PStr "e"])) (store abcde)
                     (iteratorFor abcde (PStr "c")))) = None.
Proof.
  apply (iteratorFor_present abcde [PStr "a"; PStr "b"] (PStr "c")
           [PStr "d"; PStr "e"]).
  - apply reachable_construct.
  - by vm_compute.
Defined.

(** ** [forEach] and [forEachReverse] *)

(** The loop over an iterator whose steps yield the pairs of [vs] and
    then run off the chain, with a callback that leaves the set alone. *)
Lemma for_of_entries_observer {T A : Type} n fuel
    (f : T → Prim → Prim → ReverseIterableSet → A → A) (thisArg : T) it it' this a vs :
  drain n (store this) it = ((λ v, iteratorResult (JTuple v v)) <$> vs, it') →
  currentNode it' = None → n < fuel →
  for_of_entries fuel (observer f) thisArg it this a =
  Some (this, foldl (λ a v, f thisArg v v this a) a vs).
Proof.
  revert fuel it a vs. induction n as [|n IH]; intros fuel it a vs Hd Hend Hfuel;
    (destruct fuel as [|fuel]; [lia|]); simpl in *.
  - injection Hd as Hvs ->. symmetry in Hvs. apply fmap_nil_inv in Hvs as ->.
    by rewrite next_exhausted.
  - destruct (Iterator.next (store this) it) as [r it1].
    destruct (drain n (store this) it1) as [rs it2] eqn:Hd1.
    injection Hd as Hvs ->. symmetry in Hvs.
    apply fmap_cons_inv in Hvs as (v & vs' & -> & -> & ->). simpl.
    apply (IH fuel it1 _ vs'); [done..|lia].
Qed.

(** X8.  [forEach] calls the callback once for every element of the set,
    [undefined] included, in insertion order, handing it the element
    twice and the set; a callback that does not change the set leaves it
    as it was. *)
Theorem forEach_visits_all {T A : Type} this fuel
    (f : T → Prim → Prim → ReverseIterableSet → A → A) (thisArg : T) (a : A) :
  reachable this → size this < fuel →
  forEach fuel (observer f) thisArg this a =
  Some (this, foldl (λ a v, f thisArg v v this a) a (elements this)).
Proof.
  intros [ls HRep]%reachable_Rep Hfuel.
  rewrite (Rep_size _ _ HRep) in Hfuel. rewrite (Rep_elements _ _ HRep).
  apply (for_of_entries_observer (length ls) _ _ _ _
           (mkIter (λ node, JTuple (value node) (value node)) None
              (_lastNode this) None true)); [|done..].
  unfold Iterator.Symbol_iterator, entries, _iterableIterator.
  rewrite (rep_first _ _ HRep), <- list_fmap_compose.
  exact (drain_forward_end (store this) (λ node, JTuple (value node) (value node))
           None (_lastNode this) None [] ls (rep_links _ _ HRep)).
Qed.

(** X8 at the set 1, [undefined], 2 and a callback that records its first
    argument. *)
Lemma forEach_visits_all_witness :
  forEach 4 (observer (λ (_ : unit) value2 _ _ seen, seen ++ [value2])) ()
    undefined_between [] =
  Some (undefined_between,
        foldl (λ seen v, seen ++ [v]) [] (elements undefined_between)).
Proof.
  apply (forEach_visits_all undefined_between 4
           (λ (_ : unit) value2 _ _ seen, seen ++ [value2]) () []).
  - apply reachable_construct.
  - vm_compute. lia.
Defined.

(** X9.  [forEachReverse] calls the callback once for every element of
    the set, [undefined] included, from the last element to the first; a
    callback that does not change the set leaves it as it was. *)
Theorem forEachReverse_visits_all {T A : Type} this fuel
    (f : T → Prim → Prim → ReverseIterableSet → A → A) (thisArg : T) (a : A) :
  reachable this → size this < fuel →
  forEachReverse fuel (observer f) thisArg this a =
  Some (this, foldl (λ a v, f thisArg v v this a) a (reverse (elements this))).
Proof.
  intros [ls HRep]%reachable_Rep Hfuel.
  rewrite (Rep_size _ _ HRep) in Hfuel. rewrite (Rep_elements _ _ HRep).
  apply (for_of_entries_observer (length ls) _ _ _ _
           (mkIter (λ node, JTuple (value node) (value node)) None
              (_lastNode this) None false)); [|done..].
  unfold Iterator.Symbol_iterator.
  rewrite <- fmap_reverse, <- list_fmap_compose.
  assert (Rep this ([] ++ ls ++ [])) as HRep'
    by (by rewrite (right_id_L [] (++))).
  exact (reverse_drain this (entries this) [] ls [] HRep' (rep_last _ _ HRep)).
Qed.

(** X9 at the set 1, [undefined], 2 and a callback that records its first
    argument. *)
Lemma forEachReverse_visits_all_witness :
  forEachReverse 4 (observer (λ (_ : unit) value2 _ _ seen, seen ++ [value2])) ()
    undefined_between [] =
  Some (undefined_between,
        foldl (λ seen v, seen ++ [v]) [] (reverse (elements undefined_between))).
Proof.
  apply (forEachReverse_visits_all undefined_between 4
           (λ (_ : unit) value2 _ _ seen, seen ++ [value2]) () []).
  - apply reachable_construct.
  - vm_compute. lia.
Defined.

Lemma filter_fmap_value (p : Prim → bool) (val : loc → Prim) (ls : list loc) :
  val <$> filter (λ l, p (val l) = false) ls = filter (λ v, p v = false) (val <$> ls).
Proof.
  induction ls as [|l ls IH]; [done|]. rewrite fmap_cons, !filter_cons.
  destruct (decide (p (val l) = false)); [rewrite fmap_cons|]; by rewrite IH.
Qed.

(** The loop of [forEach] with a callback that deletes what it visits
    when [p] holds: the nodes [kept] have been visited and kept, the
    iterator stands at the head of [post]. *)
Lemma for_of_entries_delete_if {T : Type} (p : Prim → bool) (thisArg : T) sN lN post :
  ∀ kept this seen fuel,
  reachable this → Rep this (kept ++ post) → length post < fuel →
  ∃ this',
    for_of_entries fuel (delete_if p) thisArg
      (mkIter (λ node, JTuple (value node) (value node)) sN lN (head post) true)
      this seen =
    Some (this', seen ++ ((λ l, value (deref (store this) l)) <$> post)) ∧
    reachable this' ∧
    Rep this'
      (kept ++ filter (λ l, p (value (deref (store this) l)) = false) post) ∧
    ∀ l, value (deref (store this') l) = value (deref (store this) l).
Proof.
  induction post as [|x post IH]; intros kept this seen fuel Hreach HRep Hfuel;
    (destruct fuel as [|fuel]; [simpl in Hfuel; lia|]).
  - exists this. simpl. by rewrite !(right_id_L [] (++)).
  - destruct (dlseg_focus _ _ _ _ _ _ (rep_links _ _ HRep)) as [_ Hnext].
    rewrite or_else_None in Hnext.
    cbn [for_of_entries head]. unfold Iterator.next.
    cbn [currentNode forwards getIteratorValue startNode lastNode].
    rewrite Hnext. cbn [iteratorResult is_undefined IteratorResult.done
      IteratorResult.value].
    set (vx := value (deref (store this) x)).
    unfold delete_if at 1. simpl in Hfuel.
    destruct (p vx) eqn:Hp.
    + assert (_setMap this !! vx = Some x) as Hm.
      { apply (rep_index _ _ HRep). split; [|done].
        apply elem_of_app. right. by left. }
      destruct (Rep_delete this kept x post vx HRep Hm) as (_ & HRep1 & Hval).
      destruct (IH kept (snd (delete vx this)) (seen ++ [vx]) fuel)
        as (this' & Hloop & Hreach' & HRep' & Hval'); [|done|lia|].
      { apply (reachable_op (OpDelete vx)), Hreach. }
      exists this'. split_and!; [|done| |].
      * rewrite Hloop. rewrite <- (assoc_L (++)). do 3 f_equal. simpl. f_equal.
        apply list_fmap_ext. intros i l _. apply Hval.
      * rewrite filter_cons_False by (fold vx; congruence).
        erewrite list_filter_iff; [exact HRep'|]. intros l. simpl. by rewrite Hval.
      * intros l. by rewrite Hval', Hval.
    + destruct (IH (kept ++ [x]) this (seen ++ [vx]) fuel)
        as (this' & Hloop & Hreach' & HRep' & Hval'); [done| |lia|].
      { by rewrite <- (assoc_L (++)). }
      exists this'. split_and!; [|done| |done].
      * rewrite Hloop. by rewrite <- (assoc_L (++)).
      * rewrite filter_cons_True by done.
        by rewrite <- (assoc_L (++)) in HRep'.
Qed.

(** X10.  Deleting elements from inside a [forEach] callback is safe: with
    a callback that deletes the element it is handed whenever [p] holds
    of it, every element of the set is still visited exactly once, in
    insertion order, and afterwards the set holds exactly the elements
    for which [p] does not hold, in their old order. *)
Theorem forEach_delete_if {T : Type} this fuel (p : Prim → bool) (thisArg : T) :
  reachable this → size this < fuel →
  ∃ this',
    forEach fuel (delete_if p) thisArg this [] = Some (this', elements this) ∧
    reachable this' ∧
    elements this' = filter (λ v, p v = false) (elements this).
Proof.
  intros Hreach Hfuel. destruct (reachable_Rep _ Hreach) as [ls HRep].
  rewrite (Rep_size _ _ HRep) in Hfuel.
  destruct (for_of_entries_delete_if p thisArg None (_lastNode this) ls [] this []
              fuel Hreach HRep Hfuel) as (this' & Hloop & Hreach' & HRep' & Hval).
  exists this'. split_and!; [|done|].
  - unfold forEach, Iterator.Symbol_iterator, entries, _iterableIterator.
    rewrite (rep_first _ _ HRep), Hloop. by rewrite (Rep_elements _ _ HRep).
  - rewrite (Rep_elements _ _ HRep'), (Rep_elements _ _ HRep). simpl.
    rewrite <- filter_fmap_value. apply list_fmap_ext. intros i l _. apply Hval.
Qed.

(** X10 at the set 1, 2, 3 and a callback that deletes 1 and 2. *)
Lemma forEach_delete_if_witness :
  ∃ this',
    forEach 4 (delete_if (λ v, bool_decide (v ≠ PNum 3))) () one_two_three [] =
      Some (this', elements one_two_three) ∧
    reachable this' ∧
    elements this' =
      filter (λ v, bool_decide (v ≠ PNum 3) = false) (elements one_two_three).
Proof.
  apply (forEach_delete_if one_two_three 4 (λ v, bool_decide (v ≠ PNum 3)) ()).
  - apply reachable_construct.
  - vm_compute. lia.
Defined.

(** ** Changing the set while an iterator is in use *)

(** The node that the index gives for an element of the chain. *)
Lemma Rep_element_node this ls pre X post :
  Rep this ls → elements this = pre ++ X :: post →
  ∃ lpre lX lpost,
    ls = lpre ++ lX :: lpost ∧ _setMap this !! X = Some lX ∧
    pre = (λ l, value (deref (store this) l)) <$> lpre ∧
    post = (λ l, value (deref (store this) l)) <$> lpost.
Proof.
  intros HRep Hel.
  destruct (Rep_elements_split this ls pre (X :: post) HRep Hel)
    as (lpre & lpost & -> & -> & Hpost).
  destruct lpost as [|lX lpost]; [done|]. simpl in Hpost.
  injection Hpost as HX ->. exists lpre, lX, lpost. split_and!; [done| |done..].
  apply (rep_index _ _ HRep). split; [|done]. apply elem_of_app. right. by left.
Qed.

(** A [values()] iterator standing on the node of the element [X]. *)
Lemma drain_from_element this ls pre X post lX sN lN :
  Rep this ls → elements this = pre ++ X :: post → _setMap this !! X = Some lX →
  drain (S (length post)) (store this)
    (mkIter (λ node, JPrim (value node)) sN lN (Some lX) true) =
  ((λ x, iteratorResult (JPrim x)) <$> (X :: post),
   mkIter (λ node, JPrim (value node)) sN lN None true).
Proof.
  intros HRep Hel Hm.
  destruct (Rep_element_node this ls pre X post HRep Hel)
    as (lpre & lX' & lpost & -> & Hm' & -> & ->).
  assert (lX' = lX) as -> by congruence.
  assert (value (deref (store this) lX) = X) as HX.
  { by apply (rep_index _ _ HRep) in Hm as [_ ?]. }
  pose proof (drain_forward_end (store this) (λ node, JPrim (value node))
    sN lN None lpre (lX :: lpost) (rep_links _ _ HRep)) as Hd.
  cbn [head length] in Hd. rewrite length_fmap, Hd.
  f_equal. rewrite fmap_cons, <- HX. simpl. f_equal.
  by rewrite <- list_fmap_compose.
Qed.

(** The [values()] iterator after it has yielded the elements [pre]. *)
Lemma values_at_element this ls pre X post :
  Rep this ls → elements this = pre ++ X :: post →
  ∃ lX, _setMap this !! X = Some lX ∧
    snd (drain (length pre) (store this) (values this)) =
    mkIter (λ node, JPrim (value node)) None (_lastNode this) (Some lX) true.
Proof.
  intros HRep Hel.
  destruct (Rep_element_node this ls pre X post HRep Hel)
    as (lpre & lX & lpost & -> & Hm & -> & ->).
  exists lX. split; [done|].
  by rewrite length_fmap, (values_drain this lpre (lX :: lpost) HRep).
Qed.

Lemma delete_elements this v :
  reachable this →
  elements (snd (delete v this)) = filter (λ x, x ≠ v) (elements this).
Proof.
  intros Hreach. destruct (reachable_Rep _ Hreach) as [ls HRep].
  destruct (_setMap this !! v) as [l|] eqn:Hm.
  - assert (l ∈ ls) as (pre & post & ->)%list_elem_of_split.
    { by apply (rep_index _ _ HRep) in Hm as [? _]. }
    destruct (Rep_delete this pre l post v HRep Hm) as (_ & HRep' & Hval).
    assert (value (deref (store this) l) = v) as Hl.
    { by apply (rep_index _ _ HRep) in Hm as [_ ?]. }
    pose proof (Rep_elements_NoDup _ _ HRep) as Hnd.
    rewrite (Rep_elements _ _ HRep), fmap_app, fmap_cons, Hl in Hnd.
    rewrite (Rep_elements _ _ HRep), (Rep_elements _ _ HRep').
    rewrite (fmap_app _ pre (l :: post)), fmap_cons, Hl, filter_remove by done.
    rewrite fmap_app. f_equal; apply list_fmap_ext; intros; apply Hval.
  - assert (v ∉ elements this) as Hv.
    { rewrite <- (Rep_has _ _ _ HRep), has_true, Hm. by intros [? ?]. }
    unfold delete, JsMap.get. rewrite Hm. simpl. by rewrite filter_other.
Qed.

(** [delete] writes to the neighbours of the node it unlinks only. *)
Lemma delete_store_other this v node l :
  _setMap this !! v = Some node →
  prevNode (deref (store this) node) ≠ Some l →
  nextNode (deref (store this) node) ≠ Some l →
  deref (store (snd (delete v this))) l = deref (store this) l.
Proof.
  intros Hm Hp Hn. unfold delete, JsMap.get. rewrite Hm.
  destruct (prevNode (deref (store this) node)) as [p|],
    (nextNode (deref (store this) node)) as [n|]; simpl;
    rewrite ?deref_insert_ne; congruence.
Qed.

(** X11.  Deleting the element an iterator is about to yield does not hide
    it from that iterator: the unlinked node keeps its value and its
    links, so the iterator still yields the deleted element and then the
    elements that followed it, although a new iterator of the set no
    longer reaches it. *)
Theorem delete_current_still_yielded this pre X post :
  reachable this → elements this = pre ++ X :: post →
  fst (drain (S (length post)) (store (snd (delete X this)))
         (snd (drain (length pre) (store this) (values this)))) =
    (λ x, iteratorResult (JPrim x)) <$> (X :: post) ∧
  elements (snd (delete X this)) = pre ++ post.
Proof.
  intros Hreach Hel. destruct (reachable_Rep _ Hreach) as [ls HRep].
  destruct (values_at_element this ls pre X post HRep Hel) as (lX' & Hm' & ->).
  destruct (Rep_element_node this ls pre X post HRep Hel)
    as (lpre & lX & lpost & -> & Hm & -> & ->).
  assert (lX' = lX) as -> by congruence.
  destruct (Rep_delete this lpre lX lpost X HRep Hm) as (_ & HRep' & Hval).
  destruct (dlseg_focus _ _ _ _ _ _ (rep_links _ _ HRep)) as [Hprev Hnext].
  rewrite or_else_None in Hprev, Hnext.
  pose proof (rep_nodup _ _ HRep) as Hnd.
  apply NoDup_app in Hnd as (_ & Hdisj & [HlX _]%NoDup_cons).
  assert (deref (store (snd (delete X this))) lX = deref (store this) lX) as Hsame.
  { apply (delete_store_other this X lX lX Hm).
    - rewrite Hprev. intros Hl%last_Some_elem_of. apply (Hdisj lX Hl). by left.
    - rewrite Hnext. by intros Hl%head_Some_elem_of. }
  split.
  - cbn [drain]. unfold Iterator.next at 1.
    cbn [currentNode forwards getIteratorValue startNode lastNode].
    rewrite Hsame, Hnext.
    rewrite length_fmap,
      (drain_forward_end (store (snd (delete X this))) (λ node, JPrim (value node))
         None (_lastNode this) None lpre lpost (rep_links _ _ HRep')).
    cbn [fst]. rewrite fmap_cons. f_equal.
    + f_equal. f_equal. by apply (rep_index _ _ HRep) in Hm as [_ ?].
    + rewrite <- list_fmap_compose. apply list_fmap_ext. intros i l _.
      unfold result_at. simpl. by rewrite Hval.
  - rewrite delete_elements, Hel by done.
    apply filter_remove. rewrite <- Hel. by apply (Rep_elements_NoDup _ _ HRep).
Qed.

(** X11 at the set 1, 2, 3 with the iterator standing on 2. *)
Lemma delete_current_still_yielded_witness :
  fst (drain (S (length [PNum 3])) (store (snd (delete (PNum 2) one_two_three)))
         (snd (drain (length [PNum 1]) (store one_two_three) (values one_two_three)))) =
    (λ x, iteratorResult (JPrim x)) <$> (PNum 2 :: [PNum 3]) ∧
  elements (snd (delete (PNum 2) one_two_three)) = [PNum 1] ++ [PNum 3].
Proof.
  apply (delete_current_still_yielded one_two_three [PNum 1] (PNum 2) [PNum 3]).
  - apply reachable_construct.
  - by vm_compute.
Defined.

(** X12.  Deleting any other element while an iterator is in use is safe:
    an iterator about to yield [X] goes on to yield [X] and the elements
    after it that are still in the set, in their order, and then ends. *)
Theorem delete_other_during_iteration this pre X post Y :
  reachable this → elements this = pre ++ X :: post → Y ≠ X →
  drain (S (length (filter (λ x, x ≠ Y) post))) (store (snd (delete Y this)))
    (snd (drain (length pre) (store this) (values this))) =
  ((λ x, iteratorResult (JPrim x)) <$> (X :: filter (λ x, x ≠ Y) post),
   mkIter (λ node, JPrim (value node)) None (_lastNode this) None true).
Proof.
  intros Hreach Hel HY. destruct (reachable_Rep _ Hreach) as [ls HRep].
  destruct (values_at_element this ls pre X post HRep Hel) as (lX & Hm & ->).
  pose proof (reachable_op (OpDelete Y) _ Hreach) as Hreach'. simpl in Hreach'.
  destruct (reachable_Rep _ Hreach') as [ls' HRep'].
  apply (drain_from_element _ ls' (filter (λ x, x ≠ Y) pre)); [done| |].
  - rewrite delete_elements, Hel, filter_app, filter_cons_True by done. done.
  - rewrite delete_setMap, lookup_delete_ne by done. done.
Qed.

(** X12 at the set a, b, c, d, e with the iterator standing on b, deleting
    d. *)
Lemma delete_other_during_iteration_witness :
  drain (S (length (filter (λ x, x ≠ PStr "d") [PStr "c"; PStr "d"; PStr "e"])))
    (store (snd (delete (PStr "d") abcde)))
    (snd (drain (length [PStr "a"]) (store abcde) (values abcde))) =
  ((λ x, iteratorResult (JPrim x)) <$>
     (PStr "b" :: filter (λ x, x ≠ PStr "d") [PStr "c"; PStr "d"; PStr "e"]),
   mkIter (λ node, JPrim (value node)) None (_lastNode abcde) None true).
Proof.
  apply (delete_other_during_iteration abcde [PStr "a"] (PStr "b")
           [PStr "c"; PStr "d"; PStr "e"] (PStr "d")).
  - apply reachable_construct.
  - by vm_compute.
  - done.
Defined.

(** X13.  Adding a new value while a forward iterator is in use: after
    [add] the iterator, if it has not run off the chain yet, also yields
    the new element, last; after [addFirst] it does not yield the new
    element. *)
Theorem add_during_iteration this pre X post v :
  reachable this → elements this = pre ++ X :: post → has this v = false →
  drain (S (length (post ++ [v]))) (store (add v this))
    (snd (drain (length pre) (store this) (values this))) =
  ((λ x, iteratorResult (JPrim x)) <$> (X :: post ++ [v]),
   mkIter (λ node, JPrim (value node)) None (_lastNode this) None true) ∧
  drain (S (length post)) (store (addFirst v this))
    (snd (drain (length pre) (store this) (values this))) =
  ((λ x, iteratorResult (JPrim x)) <$> (X :: post),
   mkIter (λ node, JPrim (value node)) None (_lastNode this) None true).
Proof.
  intros Hreach Hel Hhas. destruct (reachable_Rep _ Hreach) as [ls HRep].
  destruct (values_at_element this ls pre X post HRep Hel) as (lX & Hm & ->).
  assert (v ≠ X) as Hv.
  { intros ->. apply has_false in Hhas. congruence. }
  split.
  - apply (drain_from_element _ _ pre _ _ _ _ _ (Rep_add _ _ _ HRep Hhas)).
    + rewrite (add_elements this ls), Hel by done. by rewrite <- (assoc_L (++)).
    + rewrite add_setMap, lookup_insert_ne by done. done.
  - apply (drain_from_element _ _ (v :: pre) _ _ _ _ _ (Rep_addFirst _ _ _ HRep Hhas)).
    + rewrite (addFirst_elements this ls), Hel by done. done.
    + rewrite addFirst_setMap, lookup_insert_ne by done. done.
Qed.

(** X13 at the set a, b, c with the iterator standing on b, adding d. *)
Lemma add_during_iteration_witness :
  drain (S (length ([PStr "c"] ++ [PStr "d"]))) (store (add (PStr "d") abc))
    (snd (drain (length [PStr "a"]) (store abc) (values abc))) =
  ((λ x, iteratorResult (JPrim x)) <$> (PStr "b" :: [PStr "c"] ++ [PStr "d"]),
   mkIter (λ node, JPrim (value node)) None (_lastNode abc) None true) ∧
  drain (S (length [PStr "c"])) (store (addFirst (PStr "d") abc))
    (snd (drain (length [PStr "a"]) (store abc) (values abc))) =
  ((λ x, iteratorResult (JPrim x)) <$> (PStr "b" :: [PStr "c"]),
   mkIter (λ node, JPrim (value node)) None (_lastNode abc) None true).
Proof.
  apply (add_during_iteration abc [PStr "a"] (PStr "b") [PStr "c"] (PStr "d")).
  - apply reachable_construct.
  - by vm_compute.
  - by vm_compute.
Defined.

(** X14.  An iterator remembers the last node of the set as it was when
    the iterator was created: if a value is added afterwards and the
    iterator is then reversed, it starts from the old last element and
    does not yield the new one, whereas a reverse iterator created after
    the addition starts with the new element. *)
Theorem reverse_uses_last_node_of_creation this v n :
  reachable this → has this v = false →
  fst (drain (size this) (store (add v this))
         (Iterator.reverseIterator (snd (drain n (store this) (values this))))) =
    (λ x, iteratorResult (JPrim x)) <$> reverse (elements this) ∧
  fst (drain (S (size this)) (store (add v this)) (reverseIterator (add v this))) =
    (λ x, iteratorResult (JPrim x)) <$> (v :: reverse (elements this)).
Proof.
  intros Hreach Hhas. destruct (reachable_Rep _ Hreach) as [ls HRep].
  pose proof (Rep_add _ _ _ HRep Hhas) as HRep'.
  assert (∀ ls0 : list loc, (∀ l, l ∈ ls0 → l ∈ ls) →
    result_at (store (add v this)) (λ node, JPrim (value node)) <$> ls0 =
    (λ x, iteratorResult (JPrim x)) <$> ((λ l, value (deref (store this) l)) <$> ls0))
    as Hold.
  { intros ls0 Hincl. rewrite <- list_fmap_compose. apply list_fmap_ext.
    intros i l Hl%list_elem_of_lookup_2. unfold result_at. simpl.
    rewrite add_value, decide_False; [done| |done].
    apply (Rep_fresh this ls); [done|]. by apply Hincl. }
  rewrite (Rep_size _ _ HRep), (Rep_elements _ _ HRep), <- fmap_reverse.
  split.
  - rewrite reverseIterator_drain.
    rewrite (reverse_drain (add v this) (values this) [] ls [nextLoc this]);
      [|done|apply (rep_last _ _ HRep)].
    cbn [fst]. apply Hold. intros l. by rewrite elem_of_reverse.
  - unfold reverseIterator.
    replace (S (length ls)) with (length (ls ++ [nextLoc this]))
      by (rewrite length_app; simpl; lia).
    rewrite (reverse_drain (add v this) (values (add v this)) []
               (ls ++ [nextLoc this]) []).
    + cbn [fst]. rewrite reverse_snoc, !fmap_cons. f_equal.
      * unfold result_at. simpl. by rewrite add_value, decide_True.
      * apply Hold. intros l. by rewrite elem_of_reverse.
    + by rewrite (right_id_L [] (++)).
    + apply (rep_last _ _ HRep').
Qed.

(** X14 at the set a, b, c, with d added after the iterator has taken one
    step. *)
Lemma reverse_uses_last_node_of_creation_witness :
  fst (drain (size abc) (store (add (PStr "d") abc))
         (Iterator.reverseIterator (snd (drain 1 (store abc) (values abc))))) =
    (λ x, iteratorResult (JPrim x)) <$> reverse (elements abc) ∧
  fst (drain (S (size abc)) (store (add (PStr "d") abc))
         (reverseIterator (add (PStr "d") abc))) =
    (λ x, iteratorResult (JPrim x)) <$> (PStr "d" :: reverse (elements abc)).
Proof.
  apply (reverse_uses_last_node_of_creation abc (PStr "d") 1).
  - apply reachable_construct.
  - by vm_compute.
Defined.

(** ** How the methods compose *)

Lemma has_delete_same this v : has (snd (delete v this)) v = false.
Proof. apply has_false. rewrite delete_setMap. apply lookup_delete_eq. Qed.

Lemma has_add_same this v : has (add v this) v = true.
Proof.
  destruct (has this v) eqn:Hhas.
  - by rewrite Rep_add_present.
  - apply has_true. rewrite add_setMap, lookup_insert_eq by done. by eexists.
Qed.

Lemma has_addFirst_same this v : has (addFirst v this) v = true.
Proof.
  destruct (has this v) eqn:Hhas.
  - unfold addFirst. by rewrite Hhas.
  - apply has_true. rewrite addFirst_setMap, lookup_insert_eq by done. by eexists.
Qed.

(** X15.  An element is moved by deleting it and inserting it again:
    [delete] followed by [add] puts it last, [delete] followed by
    [addFirst] puts it first, and the other elements keep their order. *)
Theorem delete_then_insert_moves this v :
  reachable this →
  elements (add v (snd (delete v this))) = filter (λ x, x ≠ v) (elements this) ++ [v] ∧
  elements (addFirst v (snd (delete v this))) =
    v :: filter (λ x, x ≠ v) (elements this).
Proof.
  intros Hreach.
  pose proof (reachable_op (OpDelete v) _ Hreach) as Hreach'. simpl in Hreach'.
  destruct (reachable_Rep _ Hreach') as [ls' HRep'].
  rewrite <- delete_elements by done. split.
  - apply (add_elements _ ls'); [done|apply has_delete_same].
  - apply (addFirst_elements _ ls'); [done|apply has_delete_same].
Qed.

(** X15 at the set 1, 2, 3 and the element 2. *)
Lemma delete_then_insert_moves_witness :
  elements (add (PNum 2) (snd (delete (PNum 2) one_two_three))) =
    filter (λ x, x ≠ PNum 2) (elements one_two_three) ++ [PNum 2] ∧
  elements (addFirst (PNum 2) (snd (delete (PNum 2) one_two_three))) =
    PNum 2 :: filter (λ x, x ≠ PNum 2) (elements one_two_three).
Proof. apply (delete_then_insert_moves one_two_three (PNum 2)), reachable_construct. Defined.

(** X16.  Repeating an insertion or a deletion changes nothing, in every
    state of the set: after [add] or [addFirst] of a value, a further
    [add] or [addFirst] of it returns the set as it is, and after [delete]
    of a value a further [delete] of it returns [false] and leaves the
    set as it is. *)
Theorem repeated_update_is_noop this v :
  add v (add v this) = add v this ∧
  addFirst v (add v this) = add v this ∧
  add v (addFirst v this) = addFirst v this ∧
  addFirst v (addFirst v this) = addFirst v this ∧
  delete v (snd (delete v this)) = (false, snd (delete v this)).
Proof.
  split_and!.
  - apply Rep_add_present, has_add_same.
  - unfold addFirst at 1. by rewrite has_add_same.
  - apply Rep_add_present, has_addFirst_same.
  - unfold addFirst at 1. by rewrite has_addFirst_same.
  - pose proof (has_delete_same this v) as Hhas. apply has_false in Hhas.
    unfold delete at 1, JsMap.get. by rewrite Hhas.
Qed.

(** X17.  [reverseIterator()] of an iterator does not toggle the
    direction: applied again, after any number of steps, it restarts the
    same backward walk from the anchor, and the iterator never walks
    forward again. *)
Theorem reverseIterator_does_not_toggle it n h :
  Iterator.reverseIterator (snd (drain n h (Iterator.reverseIterator it))) =
    Iterator.reverseIterator it ∧
  forwards (snd (drain n h (Iterator.reverseIterator it))) = false.
Proof.
  split.
  - rewrite reverseIterator_drain. unfold Iterator.reverseIterator. simpl.
    by destruct (startNode it).
  - generalize (Iterator.reverseIterator it),
      (eq_refl : forwards (Iterator.reverseIterator it) = false).
    induction n as [|n IH]; intros it0 Hfw; simpl; [done|].
    assert (forwards (snd (Iterator.next h it0)) = false) as Hnext.
    { unfold Iterator.next. by destruct (currentNode it0). }
    destruct (Iterator.next h it0) as [r it1]. specialize (IH it1 Hnext).
    by destruct (drain n h it1).
Qed.
